(** * FileSynchronizer: one-way folder mirroring

    A shallow embedding of [folder_synchronizer.py] (class
    [FolderSynchronizer]) together with the parts of the Python standard
    library it calls ([hashlib], [os.walk], [os.path], [os.makedirs],
    [shutil.copy2], [shutil.rmtree], [os.remove]), followed by the
    properties of the scan / diff / apply pass.

    Conventions.
    - A path is the list of its components; [os.path.join] appends
      components and [os.path.relpath] strips the common prefix.
    - The filesystem is the content of the top directory: a finite map
      from names to nodes, a node being a regular file or a directory.
      There are no symbolic links, every directory can be listed, and a
      file either can be opened for reading or cannot.
    - Methods that touch the filesystem or the logger run in a state and
      exception monad over [world]; a set is iterated in an order that the
      development leaves open.
    - [periodic_sync], which repeats [sync_folders] for ever, is not part
      of the embedding: the properties are about one pass, or two. *)

From Stdlib Require Import ZArith Strings.Byte Strings.Ascii.
From stdpp Require Import gmap strings list fin_maps.

Abbreviation bytes := (list byte).

(** ** Exceptions *)

Inductive exn :=
  | FileNotFoundError
  | FileExistsError
  | IsADirectoryError
  | NotADirectoryError
  | PermissionError
  | SameFileError.

Inductive result (A : Type) :=
  | Ok (a : A)
  | Raise (e : exn).
Arguments Ok {A} a.
Arguments Raise {A} e.

(** ** hashlib: incremental hash objects

    [hash_function ()] creates a hash object, [update] feeds it a chunk
    and [digest] reads the digest of the data fed so far.  The two laws are
    hashlib's documented contract: repeated calls of [update] are
    equivalent to a single call with the concatenation of the arguments. *)

Class HashFunction := {
  hasher : Type;
  hash_function : hasher;
  update : hasher → bytes → hasher;
  digest : hasher → bytes;
  update_nil : ∀ h, update h [] = h;
  update_app : ∀ h a b, update (update h a) b = update h (a ++ b)
}.

(** [hexdigest]: the digest as a string of double length, two lowercase
    hexadecimal digits per byte. *)

Definition hex_digit (n : N) : ascii :=
  if (n <? 10)%N then ascii_of_N (48 + n) else ascii_of_N (87 + n).

Definition hex_byte (b : byte) : string :=
  let n := Byte.to_N b in
  String (hex_digit (n / 16)) (String (hex_digit (n mod 16)) EmptyString).

Fixpoint hex (bs : bytes) : string :=
  match bs with
  | [] => EmptyString
  | b :: bs' => hex_byte b +:+ hex bs'
  end.

Definition hexdigest `{HashFunction} (h : hasher) : string := hex (digest h).

Definition is_lower_hex (c : ascii) : bool :=
  let n := N_of_ascii c in
  ((48 <=? n) && (n <=? 57) || (97 <=? n) && (n <=? 102))%N.

Fixpoint all_chars (P : ascii → bool) (s : string) : bool :=
  match s with
  | EmptyString => true
  | String c s' => P c && all_chars P s'
  end.

(** ** MD5 (RFC 1321), the default [hash_function] *)

Module MD5.
Local Open Scope Z_scope.

Definition w32 (x : Z) : Z := x mod 2 ^ 32.

Definition rotl (x n : Z) : Z :=
  w32 (Z.lor (Z.shiftl x n) (Z.shiftr (w32 x) (32 - n))).

Definition K : list Z :=
  [ 3614090360; 3905402710;  606105819; 3250441966;
    4118548399; 1200080426; 2821735955; 4249261313;
    1770035416; 2336552879; 4294925233; 2304563134;
    1804603682; 4254626195; 2792965006; 1236535329;
    4129170786; 3225465664;  643717713; 3921069994;
    3593408605;   38016083; 3634488961; 3889429448;
     568446438; 3275163606; 4107603335; 1163531501;
    2850285829; 4243563512; 1735328473; 2368359562;
    4294588738; 2272392833; 1839030562; 4259657740;
    2763975236; 1272893353; 4139469664; 3200236656;
     681279174; 3936430074; 3572445317;   76029189;
    3654602809; 3873151461;  530742520; 3299628645;
    4096336452; 1126891415; 2878612391; 4237533241;
    1700485571; 2399980690; 4293915773; 2240044497;
    1873313359; 4264355552; 2734768916; 1309151649;
    4149444226; 3174756917;  718787259; 3951481745 ].

Definition S : list Z :=
  [ 7; 12; 17; 22; 7; 12; 17; 22; 7; 12; 17; 22; 7; 12; 17; 22;
    5;  9; 14; 20; 5;  9; 14; 20; 5;  9; 14; 20; 5;  9; 14; 20;
    4; 11; 16; 23; 4; 11; 16; 23; 4; 11; 16; 23; 4; 11; 16; 23;
    6; 10; 15; 21; 6; 10; 15; 21; 6; 10; 15; 21; 6; 10; 15; 21 ].

Definition lnot32 (x : Z) : Z := Z.lxor x (2 ^ 32 - 1).

(** Little-endian conversions. *)
Fixpoint le_bytes (n : nat) (x : Z) : bytes :=
  match n with
  | O => []
  | Datatypes.S n' =>
      default x00 (Byte.of_N (Z.to_N (x mod 256))) :: le_bytes n' (x / 256)
  end.

Fixpoint le_word (bs : bytes) : Z :=
  match bs with
  | [] => 0
  | b :: bs' => Z.of_N (Byte.to_N b) + 256 * le_word bs'
  end.

Fixpoint words (n : nat) (bs : bytes) : list Z :=
  match n with
  | O => []
  | Datatypes.S n' => le_word (take 4 bs) :: words n' (drop 4 bs)
  end.

Record regs := Regs { rA : Z; rB : Z; rC : Z; rD : Z }.

Definition init : regs :=
  Regs 1732584193 4023233417 2562383102 271733878.

Definition round (M : list Z) (r : regs) (i : nat) : regs :=
  let '(Regs a b c d) := r in
  let zi := Z.of_nat i in
  let '(f, g) :=
    if zi <? 16 then (Z.lor (Z.land b c) (Z.land (lnot32 b) d), zi)
    else if zi <? 32 then
      (Z.lor (Z.land d b) (Z.land (lnot32 d) c), (5 * zi + 1) mod 16)
    else if zi <? 48 then (Z.lxor b (Z.lxor c d), (3 * zi + 5) mod 16)
    else (Z.lxor c (Z.lor b (lnot32 d)), (7 * zi) mod 16) in
  let f' := w32 (f + a + K !!! i + M !!! Z.to_nat g) in
  Regs d (w32 (b + rotl f' (S !!! i))) b c.

Definition block (r : regs) (blk : bytes) : regs :=
  let M := words 16 blk in
  let '(Regs a b c d) := foldl (round M) r (seq 0 64) in
  Regs (w32 (rA r + a)) (w32 (rB r + b)) (w32 (rC r + c)) (w32 (rD r + d)).

Fixpoint blocks (n : nat) (r : regs) (bs : bytes) : regs :=
  match n with
  | O => r
  | Datatypes.S n' => blocks n' (block r (take 64 bs)) (drop 64 bs)
  end.

Definition pad (msg : bytes) : bytes :=
  let len := Z.of_nat (length msg) in
  msg ++ [x80] ++ replicate (Z.to_nat ((55 - len) mod 64)) x00
      ++ le_bytes 8 (8 * len).

Definition md5 (msg : bytes) : bytes :=
  let p := pad msg in
  let '(Regs a b c d) := blocks (length p / 64)%nat init p in
  le_bytes 4 a ++ le_bytes 4 b ++ le_bytes 4 c ++ le_bytes 4 d.

End MD5.

(** [hashlib.md5]: the hash object holds the data fed so far. *)
#[export] Program Instance hashlib_md5 : HashFunction := {|
  hasher := bytes;
  hash_function := [];
  update h chunk := h ++ chunk;
  digest h := MD5.md5 h
|}.
Next Obligation. intros h. apply app_nil_r. Qed.
Next Obligation. intros h a b. symmetry. apply app_assoc. Qed.

Fixpoint bytes_of_string (s : string) : bytes :=
  match s with
  | EmptyString => []
  | String c s' => byte_of_ascii c :: bytes_of_string s'
  end.

(** ** The filesystem *)

#[warnings="-register-all"]
Inductive node :=
  | File (content : bytes) (readable : bool)
  | Dir (children : gmap string node).

Abbreviation path := (list string).

(** What [os.stat] tells about a path: its kind and, for a regular file,
    its content and whether it can be opened for reading. *)
Inductive entry :=
  | DirE
  | FileE (content : bytes) (readable : bool).

Definition entry_of (t : node) : entry :=
  match t with
  | File c r => FileE c r
  | Dir _ => DirE
  end.

(** Path resolution from the top directory [d]. *)
Fixpoint node_at (d : gmap string node) (p : path) : option node :=
  match p with
  | [] => Some (Dir d)
  | n :: p' =>
      match d !! n with
      | None => None
      | Some (File c r) => match p' with [] => Some (File c r) | _ => None end
      | Some (Dir d') => node_at d' p'
      end
  end.

Definition entry_at (d : gmap string node) (p : path) : option entry :=
  entry_of <$> node_at d p.

Definition exists_ (d : gmap string node) (p : path) : bool :=
  match entry_at d p with Some _ => true | None => false end.

Definition isdir (d : gmap string node) (p : path) : bool :=
  match entry_at d p with Some DirE => true | _ => false end.

(** *** os.path *)

Definition join (a b : path) : path := a ++ b.

Definition basename (p : path) : string := default ""%string (last p).

Fixpoint common_prefix_length (p q : path) : nat :=
  match p, q with
  | x :: p', y :: q' =>
      if decide (x = y) then S (common_prefix_length p' q') else 0
  | _, _ => 0
  end.

(** [os.path.relpath p start]: one [..] for every component of [start]
    outside the common prefix, then the rest of [p]; [.] when that is
    empty. *)
Definition relpath (p start : path) : path :=
  let i := common_prefix_length p start in
  match replicate (length start - i) ".."%string ++ drop i p with
  | [] => ["."%string]
  | rel => rel
  end.

(** *** Mutations of the tree *)

#[export] Instance result_ret : MRet result := λ A a, Ok a.
#[export] Instance result_bind : MBind result := λ A B k r,
  match r with
  | Ok a => k a
  | Raise e => Raise e
  end.

(** [os.makedirs(p, exist_ok=True)]: create [p] and its missing
    ancestors; a regular file on the way is an error. *)
Fixpoint makedirs (d : gmap string node) (p : path) : result (gmap string node) :=
  match p with
  | [] => Ok d
  | n :: p' =>
      match d !! n with
      | None => d' ← makedirs ∅ p'; Ok (<[n := Dir d']> d)
      | Some (Dir c) => d' ← makedirs c p'; Ok (<[n := Dir d']> d)
      | Some (File _ _) =>
          Raise (match p' with [] => FileExistsError | _ => NotADirectoryError end)
      end
  end.

(** [open(p, 'wb')], writing [c] and closing: the parent must be a
    directory and [p] must not be one; an existing file is truncated. *)
Fixpoint write_file (d : gmap string node) (p : path) (c : bytes) (r : bool)
  : result (gmap string node) :=
  match p with
  | [] => Raise IsADirectoryError
  | n :: p' =>
      match p', d !! n with
      | [], Some (Dir _) => Raise IsADirectoryError
      | [], _ => Ok (<[n := File c r]> d)
      | _, None => Raise FileNotFoundError
      | _, Some (File _ _) => Raise NotADirectoryError
      | _, Some (Dir d') => d'' ← write_file d' p' c r; Ok (<[n := Dir d'']> d)
      end
  end.

(** Removal of the node at [p] together with everything below it. *)
Fixpoint unlink (d : gmap string node) (p : path) : gmap string node :=
  match p with
  | [] => ∅
  | n :: p' =>
      match p', d !! n with
      | [], _ => delete n d
      | _, Some (Dir d') => <[n := Dir (unlink d' p')]> d
      | _, _ => d
      end
  end.

(** *** os.walk

    Top-down: a directory yields [(top, dirs, files)] and is followed by
    the walks of its sub-directories, in the order of [dirs].  A [top]
    that cannot be listed (missing, or a regular file) yields nothing:
    [os.walk] is called without [onerror], and ignores the error of
    [scandir]. *)

Definition dirnames (d : gmap string node) : list string :=
  omap (λ '(n, c), match c with Dir _ => Some n | File _ _ => None end)
       (map_to_list d).

Definition filenames (d : gmap string node) : list string :=
  omap (λ '(n, c), match c with File _ _ => Some n | Dir _ => None end)
       (map_to_list d).

Fixpoint walk (top : path) (t : node) : list (path * list string * list string) :=
  match t with
  | File _ _ => []
  | Dir d =>
      (top, dirnames d, filenames d)
        :: map_fold (λ n c rest, walk (join top [n]) c ++ rest) [] d
  end.

Definition walk_from (d : gmap string node) (top : path)
  : list (path * list string * list string) :=
  match node_at d top with
  | Some t => walk top t
  | None => []
  end.

(** ** The world: filesystem and log *)

Inductive log_record :=
  | INFO (message : string)
  | ERROR (message : string).

Record world := World { fs : gmap string node; log : list log_record }.

Definition M (A : Type) : Type := world → result A * world.

#[export] Instance M_ret : MRet M := λ A a w, (Ok a, w).
#[export] Instance M_bind : MBind M := λ A B k m w,
  match m w with
  | (Ok a, w') => k a w'
  | (Raise e, w') => (Raise e, w')
  end.

Definition raise {A} (e : exn) : M A := λ w, (Raise e, w).

(** [try: body except Exception as e: handler e] *)
Definition try_except {A} (body : M A) (handler : exn → M A) : M A := λ w,
  match body w with
  | (Ok a, w') => (Ok a, w')
  | (Raise e, w') => handler e w'
  end.

(** [for x in l: body x] *)
Fixpoint for_each {A} (l : list A) (body : A → M unit) : M unit :=
  match l with
  | [] => mret ()
  | x :: l' => _ ← body x; for_each l' body
  end.

(** A loop that updates a local variable. *)
Fixpoint for_fold {A B} (l : list A) (body : B → A → M B) (b : B) : M B :=
  match l with
  | [] => mret b
  | x :: l' => b' ← body b x; for_fold l' body b'
  end.

Definition get_fs : M (gmap string node) := λ w, (Ok (fs w), w).
Definition put_fs (d : gmap string node) : M unit := λ w, (Ok (), World d (log w)).
Definition lift {A} (r : result A) : M A := λ w, (r, w).

Definition logger_info (message : string) : M unit := λ w,
  (Ok (), World (fs w) (log w ++ [INFO message])).
Definition logger_exception (message : string) : M unit := λ w,
  (Ok (), World (fs w) (log w ++ [ERROR message])).

Definition os_path_isdir (p : path) : M bool := d ← get_fs; mret (isdir d p).
Definition os_path_exists (p : path) : M bool := d ← get_fs; mret (exists_ d p).

Definition os_makedirs (p : path) : M unit :=
  d ← get_fs; d' ← lift (makedirs d p); put_fs d'.

(** [open(p, 'rb')] followed by reads until the end of the file. *)
Definition open_rb (p : path) : M bytes :=
  d ← get_fs;
  match entry_at d p with
  | Some (FileE c true) => mret c
  | Some (FileE _ false) => raise PermissionError
  | Some DirE => raise IsADirectoryError
  | None => raise FileNotFoundError
  end.

(** [shutil.copy2(src, dst)]: a [dst] that is a directory stands for
    [dst/basename(src)]; copying an existing file onto itself is an error;
    content and permission bits are copied. *)
Definition shutil_copy2 (src dst : path) : M unit :=
  d ← get_fs;
  let dst' := if isdir d dst then join dst [basename src] else dst in
  if bool_decide (src = dst') && exists_ d src then raise SameFileError
  else
    c ← open_rb src;
    d' ← lift (write_file d dst' c true);
    put_fs d'.

Definition shutil_rmtree (p : path) : M unit :=
  d ← get_fs;
  match entry_at d p with
  | Some DirE => put_fs (unlink d p)
  | Some (FileE _ _) => raise NotADirectoryError
  | None => raise FileNotFoundError
  end.

Definition os_remove (p : path) : M unit :=
  d ← get_fs;
  match entry_at d p with
  | Some (FileE _ _) => put_fs (unlink d p)
  | Some DirE => raise IsADirectoryError
  | None => raise FileNotFoundError
  end.

(** The generator is consumed by a loop that does not change the
    filesystem, so the walk is listed at once. *)
Definition os_walk (top : path) : M (list (path * list string * list string)) :=
  d ← get_fs; mret (walk_from d top).

(** ** class FolderSynchronizer *)

Record FolderSynchronizer := {
  source_hash : gmap path (option string);
  replica_hash : gmap path (option string);
  source_folder : path;
  replica_folder : path
}.

Definition path_str (p : path) : string := String.concat "/" p.

Definition exn_str (e : exn) : string :=
  match e with
  | FileNotFoundError => "No such file or directory"
  | FileExistsError => "File exists"
  | IsADirectoryError => "Is a directory"
  | NotADirectoryError => "Not a directory"
  | PermissionError => "Permission denied"
  | SameFileError => "are the same file"
  end.

Definition default_chunk_size : Z := 1000000.

(** [file.read(size)] on a binary file whose unread part is [rest]: the
    chunk read and what stays unread.  A negative size reads everything. *)
Definition file_read (rest : bytes) (size : Z) : bytes * bytes :=
  if (size <? 0)%Z then (rest, [])
  else (take (Z.to_nat size) rest, drop (Z.to_nat size) rest).

Section Synchronizer.

Context `{HashFunction}.

(** The order in which Python iterates over a set is not specified. *)
Variable set_iter : gset path → list path.

(** [while chunk := file.read(chunk_size): hasher.update(chunk)].
    Every iteration but the last consumes at least one byte, so
    [length rest + 1] iterations are always enough. *)
Fixpoint read_loop (fuel : nat) (chunk_size : Z) (rest : bytes) (h : hasher)
  : hasher :=
  match fuel with
  | O => h
  | S fuel' =>
      let '(chunk, rest') := file_read rest chunk_size in
      match chunk with
      | [] => h
      | _ => read_loop fuel' chunk_size rest' (update h chunk)
      end
  end.

Definition _calculate_file_hash (file_path : path) (chunk_size : Z) : M string :=
  let hasher := hash_function in
  file ← open_rb file_path;
  let hasher := read_loop (S (length file)) chunk_size file hasher in
  mret (hexdigest hasher).

Definition copy_file (source_file destination_file : path) : M unit :=
  shutil_copy2 source_file destination_file.

(** *** The diff of two manifests *)

Definition added_files (sh rh : gmap path (option string)) : gset path :=
  dom sh ∖ dom rh.

Definition removed_files (sh rh : gmap path (option string)) : gset path :=
  dom rh ∖ dom sh.

Definition modified_files (sh rh : gmap path (option string)) : gset path :=
  filter (λ file, sh !! file ≠ rh !! file) (dom sh ∩ dom rh).

(** *** Applying the diff *)

Definition add_file (self : FolderSynchronizer) (file : path) : M unit :=
  let source_file_path := join (source_folder self) file in
  let replica_file_path := join (replica_folder self) file in
  b ← os_path_isdir source_file_path;
  if b : bool then os_makedirs replica_file_path
  else
    _ ← os_makedirs (removelast replica_file_path);
    copy_file source_file_path replica_file_path.

Definition remove_file (self : FolderSynchronizer) (file : path) : M unit :=
  let replica_file_path := join (replica_folder self) file in
  e ← os_path_exists replica_file_path;
  if e : bool then
    b ← os_path_isdir replica_file_path;
    if b : bool then shutil_rmtree replica_file_path
    else os_remove replica_file_path
  else mret ().

Definition modify_file (self : FolderSynchronizer) (file : path) : M unit :=
  let source_file_path := join (source_folder self) file in
  let replica_file_path := join (replica_folder self) file in
  copy_file source_file_path replica_file_path.

(** The summary line: the header followed by [ file;] per path. *)
Definition summary (header : string) (files : list path) : string :=
  foldl (λ message file, message +:+ " " +:+ path_str file +:+ ";") header files.

Definition apply_category (header : string) (files : gset path)
    (body : path → M unit) : M unit :=
  if decide (files = ∅) then mret ()
  else
    let order := set_iter files in
    _ ← for_each order body;
    logger_info (summary header order).

Definition compare_hashes (self : FolderSynchronizer) : M unit :=
  let sh := source_hash self in
  let rh := replica_hash self in
  _ ← apply_category "Added files:" (added_files sh rh) (add_file self);
  _ ← apply_category "Removed files:" (removed_files sh rh) (remove_file self);
  apply_category "Modified files:" (modified_files sh rh) (modify_file self).

(** *** Scanning *)

Definition scan_dir (source_path root : path)
    (hash_dict : gmap path (option string)) (dir_ : string)
  : gmap path (option string) :=
  let dir_path := join root [dir_] in
  let relative_path := relpath dir_path source_path in
  <[relative_path := None]> hash_dict.

Definition scan_file (source_path root : path)
    (hash_dict : gmap path (option string)) (file : string)
  : M (gmap path (option string)) :=
  let file_path := join root [file] in
  try_except
    (file_hash ← _calculate_file_hash file_path default_chunk_size;
     let relative_path := relpath file_path source_path in
     mret (<[relative_path := Some file_hash]> hash_dict))
    (λ e,
     _ ← logger_exception
           ("Error processing file " +:+ path_str file_path +:+ ": " +:+ exn_str e);
     mret hash_dict).

(** The body of the loop over the walk. *)
Definition scan_step (source_path : path) (hash_dict : gmap path (option string))
    (e : path * list string * list string) : M (gmap path (option string)) :=
  let '(root, dirs, files) := e in
  let hash_dict := foldl (scan_dir source_path root) hash_dict dirs in
  for_fold files (scan_file source_path root) hash_dict.

Definition process_directory (source_path : path) : M (gmap path (option string)) :=
  entries ← os_walk source_path;
  for_fold entries (scan_step source_path) ∅.

Definition sync_folders (self : FolderSynchronizer) : M FolderSynchronizer :=
  sh ← process_directory (source_folder self);
  let self := {| source_hash := sh; replica_hash := replica_hash self;
                 source_folder := source_folder self;
                 replica_folder := replica_folder self |} in
  rh ← process_directory (replica_folder self);
  let self := {| source_hash := source_hash self; replica_hash := rh;
                 source_folder := source_folder self;
                 replica_folder := replica_folder self |} in
  _ ← compare_hashes self;
  mret self.

(** [time.sleep(sync_interval)]: the world has no clock. *)
Definition time_sleep (seconds : Z) : M unit := mret ().

(** [while True: self.sync_folders(); time.sleep(sync_interval)].  The loop
    has no exit: it ends only when a pass raises.  [sync_loop passes] is
    the loop cut after [passes] iterations; it returns the object as it
    stands when the loop is still running at that point. *)
Fixpoint sync_loop (passes : nat) (self : FolderSynchronizer) (sync_interval : Z)
  : M FolderSynchronizer :=
  match passes with
  | O => mret self
  | S passes' =>
      self' ← sync_folders self;
      _ ← time_sleep sync_interval;
      sync_loop passes' self' sync_interval
  end.

Definition periodic_sync (passes : nat) (self : FolderSynchronizer)
    (sync_interval : Z) : M FolderSynchronizer :=
  _ ← logger_info "Synchronizer started ...";
  sync_loop passes self sync_interval.

End Synchronizer.

(** The sequence of chunks that the read loop feeds to the hash object. *)
Fixpoint chunks_read (fuel : nat) (chunk_size : Z) (rest : bytes) : list bytes :=
  match fuel with
  | O => []
  | S fuel' =>
      let '(chunk, rest') := file_read rest chunk_size in
      match chunk with
      | [] => []
      | _ => chunk :: chunks_read fuel' chunk_size rest'
      end
  end.

(** ** Notions used to state the properties *)

Fixpoint node_size (t : node) : nat :=
  match t with
  | File _ _ => 1
  | Dir d => S (map_fold (λ _ c acc, node_size c + acc) 0 d)
  end.

(** No file of the tree refuses to be read. *)
Fixpoint readable (t : node) : bool :=
  match t with
  | File _ r => r
  | Dir d => map_fold (λ _ c acc, readable c && acc) true d
  end.

Definition all_readable (d : gmap string node) (top : path) : bool :=
  match node_at d top with
  | Some t => readable t
  | None => true
  end.

(** [below rel k]: the path [k] lies strictly below [rel]. *)
Definition below (rel k : path) : Prop := rel `prefix_of` k ∧ k ≠ rel.

#[export] Instance below_dec rel k : Decision (below rel k).
Proof. unfold below. apply _. Defined.

(** The value that a scan records for what it finds at a path: the marker
    [None] for a directory, the digest for a file that can be read, and no
    entry at all otherwise. *)
Definition view `{HashFunction} (e : option entry) : option (option string) :=
  match e with
  | Some DirE => Some None
  | Some (FileE c true) => Some (Some (hexdigest (update hash_function c)))
  | Some (FileE _ false) => None
  | None => None
  end.

Definition insert_pair (m : gmap path (option string)) (kv : path * option string)
  : gmap path (option string) := <[kv.1 := kv.2]> m.

(** The log record of a file that could not be hashed. *)
Definition scan_error (file_path : path) (e : exn) : log_record :=
  ERROR ("Error processing file " +:+ path_str file_path +:+ ": " +:+ exn_str e).

(** The assignments to [hash_dict], and the log records, that one step of
    the walk makes, in order. *)
Definition entry_writes `{HashFunction} (d : gmap string node) (source_path : path)
    (e : path * list string * list string) : list (path * option string) :=
  let '(root, dirs, files) := e in
  map (λ dir_, (relpath (join root [dir_]) source_path, None)) dirs
  ++ omap (λ file,
             match entry_at d (join root [file]) with
             | Some (FileE c true) =>
                 Some (relpath (join root [file]) source_path,
                       Some (hexdigest (update hash_function c)))
             | _ => None
             end) files.

(** The manifest and the log records of a scan, as functions of the
    filesystem. *)
Definition scan `{HashFunction} (d : gmap string node) (top : path)
  : gmap path (option string) :=
  foldl insert_pair ∅ (walk_from d top ≫= entry_writes d top).

Definition read_error (d : gmap string node) (file_path : path) : option exn :=
  match entry_at d file_path with
  | Some (FileE _ true) => None
  | Some (FileE _ false) => Some PermissionError
  | Some DirE => Some IsADirectoryError
  | None => Some FileNotFoundError
  end.

Definition entry_errors (d : gmap string node)
    (e : path * list string * list string) : list log_record :=
  let '(root, dirs, files) := e in
  omap (λ file, scan_error (join root [file]) <$> read_error d (join root [file])) files.

(** What is found at the relative path [k] below the node [t]. *)
Definition node_entry (t : node) (k : path) : option entry :=
  match t with
  | Dir dd => entry_at dd k
  | File c r => match k with [] => Some (FileE c r) | _ => None end
  end.

(** *** Hypotheses of a pass *)

Definition is_dir (e : entry) : bool :=
  match e with
  | DirE => true
  | FileE _ _ => false
  end.

(** No relative path is a directory under one folder and a regular file
    under the other. *)
Definition kinds_agree (d : gmap string node) (source replica : path) : Prop :=
  ∀ k e1 e2,
    entry_at d (source ++ k) = Some e1 → entry_at d (replica ++ k) = Some e2 →
    is_dir e1 = is_dir e2.

(** Neither folder lies inside the other. *)
Definition separate (source replica : path) : Prop :=
  ¬ source `prefix_of` replica ∧ ¬ replica `prefix_of` source.

(** The folder exists or can be created: no regular file stands at the
    path or at one of its ancestors. *)
Definition creatable (d : gmap string node) (p : path) : Prop :=
  ∀ x c r, x `prefix_of` p → entry_at d x ≠ Some (FileE c r).

(** Executable versions. *)
Fixpoint kinds_agree_node (t1 t2 : node) : bool :=
  match t1, t2 with
  | File _ _, File _ _ => true
  | File _ _, Dir _ => false
  | Dir _, File _ _ => false
  | Dir d1, Dir d2 =>
      map_fold (λ n c1 acc,
                  match d2 !! n with
                  | Some c2 => kinds_agree_node c1 c2
                  | None => true
                  end && acc) true d1
  end.

Definition kinds_agree_check (d : gmap string node) (source replica : path) : bool :=
  match node_at d source, node_at d replica with
  | Some t1, Some t2 => kinds_agree_node t1 t2
  | _, _ => true
  end.

Fixpoint creatable_check (d : gmap string node) (p : path) : bool :=
  match p with
  | [] => true
  | n :: p' =>
      match d !! n with
      | None => true
      | Some (File _ _) => false
      | Some (Dir d') => creatable_check d' p'
      end
  end.

(** *** The invariant of a pass

    [d0] is the filesystem when the pass starts and [d] the filesystem at
    some later point of the pass.  Under the source folder nothing has
    changed; under the replica folder a path is as it was, or as it is
    under the source folder, or it is gone and the source manifest has no
    entry for it; and the replica folder can still be created. *)
Definition pass_invariant `{HashFunction} (d0 : gmap string node)
    (source replica : path) (d : gmap string node) : Prop :=
  (∀ q, entry_at d (source ++ q) = entry_at d0 (source ++ q))
  ∧ (∀ q, entry_at d (replica ++ q) = entry_at d0 (replica ++ q)
          ∨ entry_at d (replica ++ q) = entry_at d0 (source ++ q)
          ∨ (entry_at d (replica ++ q) = None ∧ q ≠ []
             ∧ view (entry_at d0 (source ++ q)) = None))
  ∧ creatable d replica.

(** The replica has at [q] what the source manifest records for [q]. *)
Definition in_sync `{HashFunction} (d0 : gmap string node)
    (source replica : path) (d : gmap string node) (q : path) : Prop :=
  view (entry_at d (replica ++ q)) = view (entry_at d0 (source ++ q)).

(** What a step of one of the three loops achieves: it does not raise, it
    keeps the invariant and what is in sync, and it brings its own path in
    sync. *)
Definition pass_step `{HashFunction} (d0 : gmap string node)
    (source replica : path) (body : path → M unit) (k : path) : Prop :=
  ∀ d lg, pass_invariant d0 source replica d →
    ∃ d', body k (World d lg) = (Ok (), World d' lg)
          ∧ pass_invariant d0 source replica d'
          ∧ (∀ q, in_sync d0 source replica d q → in_sync d0 source replica d' q)
          ∧ in_sync d0 source replica d' k.

Definition scan_errors (d : gmap string node) (top : path) : list log_record :=
  walk_from d top ≫= entry_errors d.

(** ** Example filesystems *)

(** A source with a file, a sub-directory and a changed file; a replica
    with a stale directory and the old version of the changed file. *)
Definition example_fs : gmap string node :=
  {[ "source"%string :=
       Dir {[ "a.txt"%string := File (bytes_of_string "hello") true;
              "d"%string := Dir {[ "f"%string := File [] true ]};
              "m"%string := File (bytes_of_string "new") true ]};
     "replica"%string :=
       Dir {[ "old"%string := Dir {[ "f.txt"%string := File [] true ]};
              "m"%string := File (bytes_of_string "old") true ]} ]}.

(** A source with a file that cannot be read next to one that can. *)
Definition unreadable_fs : gmap string node :=
  {[ "source"%string :=
       Dir {[ "secret"%string := File (bytes_of_string "hello") false;
              "a.txt"%string := File (bytes_of_string "hello") true ]} ]}.

(** The path [x] is a file in the source and a directory in the replica. *)
Definition kind_flip_fs : gmap string node :=
  {[ "source"%string := Dir {[ "x"%string := File (bytes_of_string "hello") true ]};
     "replica"%string := Dir {[ "x"%string := Dir ∅ ]} ]}.

(** The path [x] is a directory in the source and a file in the replica. *)
Definition kind_flip_back_fs : gmap string node :=
  {[ "source"%string := Dir {[ "x"%string := Dir ∅ ]};
     "replica"%string := Dir {[ "x"%string := File (bytes_of_string "hello") true ]} ]}.

(** The replica folder [top/rep] lies inside the source folder [top]. *)
Definition nested_fs : gmap string node :=
  {[ "top"%string :=
       Dir {[ "a.txt"%string := File (bytes_of_string "hello") true;
              "rep"%string := Dir ∅ ]} ]}.

Definition nested_self : FolderSynchronizer :=
  {| source_hash := ∅; replica_hash := ∅;
     source_folder := ["top"%string];
     replica_folder := ["top"%string; "rep"%string] |}.

(** The replica folder [f/rep] is to be created below the regular file [f]. *)
Definition blocked_fs : gmap string node :=
  {[ "source"%string := Dir {[ "a.txt"%string := File (bytes_of_string "hello") true ]};
     "f"%string := File [] true ]}.

Definition blocked_self : FolderSynchronizer :=
  {| source_hash := ∅; replica_hash := ∅;
     source_folder := ["source"%string];
     replica_folder := ["f"%string; "rep"%string] |}.

(** A replica that mirrors its source. *)
Definition synced_fs : gmap string node :=
  {[ "source"%string :=
       Dir {[ "a.txt"%string := File (bytes_of_string "hello") true;
              "d"%string := Dir ∅ ]};
     "replica"%string :=
       Dir {[ "a.txt"%string := File (bytes_of_string "hello") true;
              "d"%string := Dir ∅ ]} ]}.

Definition example_self : FolderSynchronizer :=
  {| source_hash := ∅; replica_hash := ∅;
     source_folder := ["source"%string]; replica_folder := ["replica"%string] |}.

(** *** What a pass may change

    [changes_within replica d d']: from [d] to [d'], a path that is not the
    replica folder or below it is as it was, unless it is an ancestor of
    the replica folder that is now a directory. *)
Definition changes_within (replica : path) (d d' : gmap string node) : Prop :=
  ∀ x, ¬ replica `prefix_of` x →
    entry_at d' x = entry_at d x
    ∨ (x `prefix_of` replica ∧ entry_at d x = None ∧ entry_at d' x = Some DirE).

(** A computation relates the world it starts in to the world it ends in
    by [P], whether it returns or raises. *)
Definition preserves {A} (P : world → world → Prop) (m : M A) : Prop :=
  ∀ w r w', m w = (r, w') → P w w'.

(** The steps of [compare_hashes] keep the log and change the filesystem
    within the replica folder only. *)
Definition quiet_within (replica : path) (w w' : world) : Prop :=
  log w' = log w ∧ changes_within replica (fs w) (fs w').

(** The summary record of a category: none when the set is empty. *)
Definition category_log (set_iter : gset path → list path) (header : string)
    (files : gset path) : list log_record :=
  if decide (files = ∅) then [] else [INFO (summary header (set_iter files))].

(** A path that is a directory before a computation is one after it. *)
Definition stays_directory (x : path) (w w' : world) : Prop :=
  entry_at (fs w) x = Some DirE → entry_at (fs w') x = Some DirE.

(** A filesystem that differs from [example_fs] outside the source folder. *)
Definition example_fs_elsewhere : gmap string node :=
  <[ "other"%string := File (bytes_of_string "x") false ]>
    (<[ "replica"%string := Dir ∅ ]> example_fs).

(** * Properties *)

(** ** hashlib and the chunked read loop *)

Example md5_empty : hexdigest (update hash_function []) = "d41d8cd98f00b204e9800998ecf8427e"%string.
Proof. vm_compute. reflexivity. Qed.

Example md5_abc :
  hexdigest (update hash_function (bytes_of_string "abc")) = "900150983cd24fb0d6963f7d28e17f72"%string.
Proof. vm_compute. reflexivity. Qed.

(** A message of more than one block, fed in two chunks. *)
Example md5_two_blocks :
  hexdigest (update (update hash_function (replicate 30 "a"%byte)) (replicate 40 "a"%byte))
    = "0f5c6c4e740bfcc08c3c26ccb2673d46"%string.
Proof. vm_compute. reflexivity. Qed.

Example md5_hello :
  hexdigest (update hash_function (bytes_of_string "hello")) = "5d41402abc4b2a76b9719d911017c592"%string.
Proof. vm_compute. reflexivity. Qed.

Lemma hex_digit_lower n : (n < 16)%N → is_lower_hex (hex_digit n) = true.
Proof.
  intros Hn. unfold hex_digit, is_lower_hex.
  destruct (n <? 10)%N eqn:E.
  - apply N.ltb_lt in E. rewrite N_ascii_embedding by lia.
    apply orb_true_iff. left. apply andb_true_iff. split; apply N.leb_le; lia.
  - apply N.ltb_ge in E. rewrite N_ascii_embedding by lia.
    apply orb_true_iff. right. apply andb_true_iff. split; apply N.leb_le; lia.
Qed.

Lemma all_chars_app P s1 s2 :
  all_chars P (s1 +:+ s2) = all_chars P s1 && all_chars P s2.
Proof. induction s1 as [|c s1 IH]; simpl; [done|]. by rewrite IH, andb_assoc. Qed.

Lemma hex_lower bs : all_chars is_lower_hex (hex bs) = true.
Proof.
  induction bs as [|b bs IH]; [done|].
  simpl. rewrite all_chars_app, IH, andb_true_r.
  pose proof (Byte.to_N_bounded b) as Hb.
  unfold hex_byte. simpl.
  rewrite !hex_digit_lower; [done| |].
  - apply N.mod_lt. lia.
  - apply N.Div0.div_lt_upper_bound. lia.
Qed.

Lemma hex_length bs : String.length (hex bs) = 2 * length bs.
Proof.
  induction bs as [|b bs IH]; [done|].
  change (hex (b :: bs)) with
    (String (hex_digit (Byte.to_N b / 16))
       (String (hex_digit (Byte.to_N b mod 16)) (hex bs))).
  cbn [String.length length]. rewrite IH. lia.
Qed.

Section ReadLoop.

Context `{HashFunction}.

Lemma read_loop_chunks fuel cs rest h :
  read_loop fuel cs rest h = foldl update h (chunks_read fuel cs rest).
Proof.
  revert rest h. induction fuel as [|fuel IH]; intros rest h; [done|].
  simpl. destruct (file_read rest cs) as [chunk rest'].
  destruct chunk as [|b chunk]; [done|]. simpl. apply IH.
Qed.

(** With enough fuel the chunks are a partition of the content. *)
Lemma chunks_read_concat fuel cs rest :
  cs ≠ 0%Z → length rest < fuel → concat (chunks_read fuel cs rest) = rest.
Proof.
  intros Hcs. revert rest. induction fuel as [|fuel IH]; intros rest Hlen; [lia|].
  simpl. unfold file_read. destruct (cs <? 0)%Z eqn:Hneg.
  - destruct rest as [|b rest]; [done|].
    destruct fuel; simpl; [by rewrite app_nil_r|].
    unfold file_read. rewrite Hneg. simpl. by rewrite app_nil_r.
  - apply Z.ltb_ge in Hneg.
    destruct rest as [|b rest]; [by rewrite take_nil|].
    assert (Z.to_nat cs = S (pred (Z.to_nat cs))) as -> by lia.
    simpl. f_equal. rewrite IH.
    + apply take_drop.
    + rewrite length_drop. simpl in Hlen. lia.
Qed.

Lemma chunks_read_sizes fuel cs rest :
  (0 < cs)%Z →
  Forall (λ chunk, 0 < length chunk ≤ Z.to_nat cs) (chunks_read fuel cs rest).
Proof.
  intros Hcs. revert rest. induction fuel as [|fuel IH]; intros rest; [constructor|].
  simpl. unfold file_read. destruct (cs <? 0)%Z eqn:Hneg; [lia|].
  destruct (take (Z.to_nat cs) rest) as [|b chunk] eqn:Htake; [constructor|].
  constructor; [|apply IH].
  rewrite <- Htake, length_take. split; [|lia].
  destruct rest; [by rewrite take_nil in Htake|]. simpl. lia.
Qed.

(** Every chunk that is followed by another one is full. *)
Lemma chunks_read_full fuel cs rest i chunk :
  (0 < cs)%Z →
  chunks_read fuel cs rest !! i = Some chunk →
  S i < length (chunks_read fuel cs rest) →
  length chunk = Z.to_nat cs.
Proof.
  intros Hcs. revert rest i. induction fuel as [|fuel IH]; intros rest i; [done|].
  simpl. unfold file_read. destruct (cs <? 0)%Z eqn:Hneg; [lia|].
  destruct (take (Z.to_nat cs) rest) as [|b chunk'] eqn:Htake; [done|].
  destruct i as [|i]; simpl.
  - intros [= <-] Hnext. rewrite <- Htake, length_take.
    destruct (decide (Z.to_nat cs ≤ length rest)) as [|Hshort]; [lia|].
    rewrite drop_ge in Hnext by lia.
    destruct fuel; simpl in Hnext; [lia|].
    unfold file_read in Hnext. rewrite Hneg, take_nil in Hnext. simpl in Hnext. lia.
  - intros Hi Hnext. eapply IH; [done|]. lia.
Qed.

Lemma read_loop_spec fuel cs rest h :
  cs ≠ 0%Z → length rest < fuel → read_loop fuel cs rest h = update h rest.
Proof.
  intros Hcs Hlen. rewrite read_loop_chunks.
  rewrite <- (chunks_read_concat fuel cs rest) at 2 by done.
  generalize (chunks_read fuel cs rest). intros l. revert h.
  induction l as [|c l IH]; intros h; simpl; [by rewrite update_nil|].
  by rewrite IH, update_app.
Qed.

End ReadLoop.

Lemma update_chunks `{HashFunction} (chunks : list bytes) (h : hasher) :
  foldl update h chunks = update h (concat chunks).
Proof.
  revert h. induction chunks as [|c l IH]; intros h; simpl; [by rewrite update_nil|].
  by rewrite IH, update_app.
Qed.



(** ** The diff of two manifests *)

Lemma elem_of_modified_files (sh rh : gmap path (option string)) file :
  file ∈ modified_files sh rh ↔
    ∃ v1 v2, sh !! file = Some v1 ∧ rh !! file = Some v2 ∧ v1 ≠ v2.
Proof.
  unfold modified_files. rewrite elem_of_filter, elem_of_intersection, !elem_of_dom.
  split.
  - intros (Hne & [v1 H1] & [v2 H2]). exists v1, v2. split_and!; [done..|].
    intros ->. by rewrite H1, H2 in Hne.
  - intros (v1 & v2 & H1 & H2 & Hne). rewrite H1, H2. split_and!; [|by eexists..].
    by intros [= ->].
Qed.

Lemma elem_of_added_files (sh rh : gmap path (option string)) file :
  file ∈ added_files sh rh ↔ is_Some (sh !! file) ∧ rh !! file = None.
Proof.
  unfold added_files. by rewrite elem_of_difference, elem_of_dom, not_elem_of_dom.
Qed.

Lemma elem_of_removed_files (sh rh : gmap path (option string)) file :
  file ∈ removed_files sh rh ↔ is_Some (rh !! file) ∧ sh !! file = None.
Proof.
  unfold removed_files. by rewrite elem_of_difference, elem_of_dom, not_elem_of_dom.
Qed.

(** C2 (as the code has it): a key is in the modified set exactly when it
    is present in both manifests with different values: two digests that
    differ, or a directory marker on one side and a digest on the other.
    A key that is a directory on both sides is never in the set. *)
Theorem modified_files_spec (sh rh : gmap path (option string)) (file : path) :
  file ∈ modified_files sh rh ↔
    (∃ d1 d2, sh !! file = Some (Some d1) ∧ rh !! file = Some (Some d2) ∧ d1 ≠ d2)
    ∨ (∃ d, sh !! file = Some None ∧ rh !! file = Some (Some d))
    ∨ (∃ d, sh !! file = Some (Some d) ∧ rh !! file = Some None).
Proof.
  rewrite elem_of_modified_files. split.
  - intros ([d1|] & [d2|] & H1 & H2 & Hne).
    + left. exists d1, d2. split_and!; [done..|]. by intros ->.
    + right. right. by exists d1.
    + right. left. by exists d2.
    + done.
  - intros [(d1 & d2 & H1 & H2 & Hne)|[(d & H1 & H2)|(d & H1 & H2)]].
    + exists (Some d1), (Some d2). split_and!; [done..|]. by intros [= ->].
    + by exists None, (Some d).
    + by exists (Some d), None.
Qed.

(** C2, counterexample: a key that is a directory in the source manifest
    and a file in the replica manifest is in the modified set, although
    the two entries are not both files. *)
Lemma modified_files_kind_flip :
  let sh : gmap path (option string) := {[ ["x"%string] := None ]} in
  let rh : gmap path (option string) :=
    {[ ["x"%string] := Some "d41d8cd98f00b204e9800998ecf8427e"%string ]} in
  ["x"%string] ∈ modified_files sh rh
  ∧ ¬ (∃ d1 d2, sh !! ["x"%string] = Some (Some d1)
               ∧ rh !! ["x"%string] = Some (Some d2) ∧ d1 ≠ d2).
Proof.
  intros sh rh. split.
  - apply elem_of_modified_files. exists None, (Some "d41d8cd98f00b204e9800998ecf8427e"%string).
    unfold sh, rh. by rewrite !lookup_singleton_eq.
  - intros (d1 & d2 & H1 & _). unfold sh in H1. by rewrite lookup_singleton_eq in H1.
Qed.

(** C4: the added, removed and modified sets are pairwise disjoint, and
    each of their keys is a key of one of the two manifests. *)
Theorem diff_sets_disjoint (sh rh : gmap path (option string)) :
  added_files sh rh ## removed_files sh rh
  ∧ added_files sh rh ## modified_files sh rh
  ∧ removed_files sh rh ## modified_files sh rh
  ∧ added_files sh rh ∪ removed_files sh rh ∪ modified_files sh rh
      ⊆ dom sh ∪ dom rh.
Proof.
  unfold added_files, removed_files, modified_files.
  split_and!; set_solver.
Qed.

Lemma diff_self_empty (A : gmap path (option string)) :
  added_files A A = ∅ ∧ removed_files A A = ∅ ∧ modified_files A A = ∅.
Proof.
  unfold added_files, removed_files, modified_files.
  split_and!; [set_solver..|].
  apply set_eq. intros file. rewrite elem_of_filter. set_solver.
Qed.

(** ** Paths and path resolution *)

Lemma common_prefix_length_app (p q : path) :
  common_prefix_length (p ++ q) p = length p.
Proof.
  induction p as [|x p IH]; simpl; [by destruct q|].
  by rewrite decide_True, IH.
Qed.

Lemma relpath_app (start q : path) : q ≠ [] → relpath (start ++ q) start = q.
Proof.
  intros Hq. unfold relpath. rewrite common_prefix_length_app, Nat.sub_diag.
  simpl. rewrite drop_app_length. by destruct q.
Qed.

Lemma below_app (rel k' : path) : k' ≠ [] → below rel (rel ++ k').
Proof.
  intros Hk. split; [by apply prefix_app_r|].
  intros Heq. apply Hk. apply (inj (app rel)). by rewrite app_nil_r.
Qed.

Lemma below_inv (rel k : path) : below rel k → ∃ n k', k = rel ++ n :: k'.
Proof.
  intros [[k' ->] Hne]. destruct k' as [|n k']; [by rewrite app_nil_r in Hne|].
  by exists n, k'.
Qed.

Lemma below_nil (k : path) : below [] k ↔ k ≠ [].
Proof. unfold below. split; [naive_solver|]. intros ?. split; [apply prefix_nil|done]. Qed.

Lemma node_at_app (d : gmap string node) (p q : path) :
  node_at d (p ++ q) =
    t ← node_at d p;
    match t with
    | Dir d' => node_at d' q
    | File c r => match q with [] => Some (File c r) | _ => None end
    end.
Proof.
  revert d. induction p as [|n p IH]; intros d; simpl; [done|].
  destruct (d !! n) as [[c r|d']|]; [|by apply IH|done].
  destruct p; simpl; [done|]. by destruct q.
Qed.

Lemma node_at_child (d : gmap string node) (p : path) (d' : gmap string node) n :
  node_at d p = Some (Dir d') → node_at d (p ++ [n]) = d' !! n.
Proof.
  intros Hp. rewrite node_at_app, Hp. simpl.
  by destruct (d' !! n) as [[]|].
Qed.

Lemma entry_at_child (d : gmap string node) (p : path) (d' : gmap string node) n :
  node_at d p = Some (Dir d') → entry_at d (p ++ [n]) = entry_of <$> d' !! n.
Proof. intros Hp. unfold entry_at. by erewrite node_at_child. Qed.

(** Whatever exists has a directory as its parent. *)
Lemma node_at_parent (d : gmap string node) (p : path) n :
  is_Some (node_at d (p ++ [n])) → ∃ d', node_at d p = Some (Dir d').
Proof.
  rewrite node_at_app. destruct (node_at d p) as [[c r|d']|]; simpl.
  - by intros [? [=]].
  - eauto.
  - by intros [? [=]].
Qed.

Lemma entry_at_prefix (d : gmap string node) (p q : path) :
  is_Some (entry_at d (p ++ q)) → q ≠ [] → entry_at d p = Some DirE.
Proof.
  unfold entry_at. rewrite node_at_app.
  destruct (node_at d p) as [[c r|d']|]; simpl; [|done|by intros [? [=]]].
  destruct q; [done|]. by intros [? [=]].
Qed.

(** ** Induction on trees *)

Lemma node_size_child (d : gmap string node) n t :
  d !! n = Some t → node_size t < node_size (Dir d).
Proof.
  intros Hn. simpl.
  rewrite (map_fold_delete_L _ _ n t d); [lia| |done].
  intros. lia.
Qed.

Lemma node_ind' (P : node → Prop) :
  (∀ c r, P (File c r)) →
  (∀ d, (∀ n t, d !! n = Some t → P t) → P (Dir d)) →
  ∀ t, P t.
Proof.
  intros Hfile Hdir t.
  remember (node_size t) as sz eqn:Hsz. revert t Hsz.
  induction sz as [sz IH] using lt_wf_ind. intros [c r|d] ->; [done|].
  apply Hdir. intros n t Hn. eapply IH; [|done]. by eapply node_size_child.
Qed.

(** ** Scanning: from the loop to the list of its assignments *)

Section Scan.

Context `{HashFunction}.
Variable d : gmap string node.
Variable source_path : path.

Lemma calculate_file_hash_run (file_path : path) (lg : list log_record) :
  _calculate_file_hash file_path default_chunk_size (World d lg) =
    match entry_at d file_path with
    | Some (FileE c true) => (Ok (hexdigest (update hash_function c)), World d lg)
    | Some (FileE _ false) => (Raise PermissionError, World d lg)
    | Some DirE => (Raise IsADirectoryError, World d lg)
    | None => (Raise FileNotFoundError, World d lg)
    end.
Proof.
  unfold _calculate_file_hash, open_rb, get_fs, mbind, M_bind, mret, M_ret, raise.
  cbn [fs]. destruct (entry_at d file_path) as [[|c [|]]|]; try done.
  rewrite read_loop_spec; [done|done|lia].
Qed.

Lemma scan_dirs_writes (root : path) (dirs : list string) hash_dict :
  foldl (scan_dir source_path root) hash_dict dirs =
    foldl insert_pair hash_dict
      (map (λ dir_, (relpath (join root [dir_]) source_path, None)) dirs).
Proof.
  revert hash_dict. induction dirs as [|x dirs IH]; intros hash_dict; [done|].
  simpl. by rewrite IH.
Qed.

Lemma scan_files_writes (root : path) (files : list string) hash_dict lg :
  for_fold files (scan_file source_path root) hash_dict (World d lg) =
    (Ok (foldl insert_pair hash_dict (entry_writes d source_path (root, [], files))),
     World d (lg ++ entry_errors d (root, [], files))).
Proof.
  revert hash_dict lg. induction files as [|x files IH]; intros hash_dict lg.
  { simpl. by rewrite app_nil_r. }
  cbn [for_fold]. unfold mbind at 1, M_bind at 1.
  unfold scan_file at 1, try_except.
  unfold mbind at 1, M_bind at 1. rewrite calculate_file_hash_run.
  unfold entry_writes, entry_errors, read_error in *. simpl in *.
  destruct (entry_at d (join root [x])) as [[|c [|]]|] eqn:Hx; simpl.
  - rewrite IH. by rewrite <- app_assoc.
  - rewrite IH. done.
  - rewrite IH. by rewrite <- app_assoc.
  - rewrite IH. by rewrite <- app_assoc.
Qed.

Lemma scan_entries_writes (entries : list (path * list string * list string))
    hash_dict lg :
  for_fold entries (scan_step source_path) hash_dict (World d lg) =
    (Ok (foldl insert_pair hash_dict (entries ≫= entry_writes d source_path)),
     World d (lg ++ (entries ≫= entry_errors d))).
Proof.
  revert hash_dict lg. induction entries as [|[[root dirs] files] entries IH];
    intros hash_dict lg.
  { simpl. by rewrite app_nil_r. }
  cbn [for_fold]. unfold mbind at 1, M_bind at 1.
  unfold scan_step at 1. rewrite scan_files_writes, scan_dirs_writes.
  rewrite IH. rewrite !bind_cons, foldl_app, <- !app_assoc.
  unfold entry_writes at 3. rewrite foldl_app. done.
Qed.

(** Looking up a key after a run of assignments that never assign two
    different values to one key. *)
Lemma foldl_insert_pair_lookup (ws : list (path * option string)) hash_dict k v :
  (∀ k v1 v2, (k, v1) ∈ ws → (k, v2) ∈ ws → v1 = v2) →
  (k, v) ∈ ws → foldl insert_pair hash_dict ws !! k = Some v.
Proof.
  induction ws as [|[k0 v0] ws IH] using rev_ind; intros Hfun Hin; [by inv Hin|].
  rewrite foldl_snoc. unfold insert_pair at 1. simpl.
  destruct (decide (k0 = k)) as [->|Hne].
  - rewrite lookup_insert_eq. f_equal. apply (Hfun k); set_solver.
  - rewrite lookup_insert_ne by done. apply IH; [|set_solver].
    intros k' v1 v2 ??. apply (Hfun k'); set_solver.
Qed.

Lemma foldl_insert_pair_lookup_None (ws : list (path * option string)) hash_dict k :
  (∀ v, (k, v) ∉ ws) → foldl insert_pair hash_dict ws !! k = hash_dict !! k.
Proof.
  induction ws as [|[k0 v0] ws IH] using rev_ind; intros Hnot; [done|].
  rewrite foldl_snoc. unfold insert_pair at 1. simpl.
  rewrite lookup_insert_ne; [apply IH|]; set_solver.
Qed.

End Scan.

(** With the default hash function the digest is the MD5 of the content. *)
Lemma calculate_file_hash_md5 (w : world) (file_path : path) (content : bytes) :
  entry_at (fs w) file_path = Some (FileE content true) →
  _calculate_file_hash (H := hashlib_md5) file_path default_chunk_size w
    = (Ok (hex (MD5.md5 content)), w).
Proof.
  intros Hfile. destruct w as [d lg]. cbn [fs] in Hfile.
  by rewrite calculate_file_hash_run, Hfile.
Qed.

(** ** Scanning: what the walk visits *)

Lemma elem_of_dirnames (dd : gmap string node) n :
  n ∈ dirnames dd ↔ ∃ d', dd !! n = Some (Dir d').
Proof.
  unfold dirnames. rewrite list_elem_of_omap. split.
  - intros ([n' [c r|d']] & Hin & Heq); simplify_eq.
    apply elem_of_map_to_list in Hin. eauto.
  - intros [d' Hn]. exists (n, Dir d'). by rewrite elem_of_map_to_list.
Qed.

Lemma elem_of_filenames (dd : gmap string node) n :
  n ∈ filenames dd ↔ ∃ c r, dd !! n = Some (File c r).
Proof.
  unfold filenames. rewrite list_elem_of_omap. split.
  - intros ([n' [c r|d']] & Hin & Heq); simplify_eq.
    apply elem_of_map_to_list in Hin. eauto.
  - intros (c & r & Hn). exists (n, File c r). by rewrite elem_of_map_to_list.
Qed.

Lemma elem_of_walk_children {B} (f : path * list string * list string → list B)
    (root : path) (dd : gmap string node) (x : B) :
  x ∈ map_fold (λ n c rest, walk (join root [n]) c ++ rest) [] dd ≫= f ↔
    ∃ n c, dd !! n = Some c ∧ x ∈ walk (join root [n]) c ≫= f.
Proof.
  rewrite map_fold_foldr.
  setoid_rewrite <- elem_of_map_to_list.
  induction (map_to_list dd) as [|[n c] l IH]; simpl.
  - split; [by intros ?%elem_of_nil|]. by intros (? & ? & ?%elem_of_nil & _).
  - rewrite bind_app, elem_of_app, IH. split.
    + intros [Hx|(n' & c' & Hin & Hx)].
      * exists n, c. split; [left|done].
      * exists n', c'. split; [by right|done].
    + intros (n' & c' & Hin & Hx). apply elem_of_cons in Hin as [[= -> ->]|Hin].
      * by left.
      * right. eauto.
Qed.

Lemma entry_at_sub (d : gmap string node) (p q : path) (dd : gmap string node) :
  node_at d p = Some (Dir dd) → entry_at d (p ++ q) = entry_at dd q.
Proof. intros Hp. unfold entry_at. by rewrite node_at_app, Hp. Qed.

Section Walk.

Context `{HashFunction}.
Variable d : gmap string node.
Variable top : path.

Lemma walk_writes_spec (t : node) :
  ∀ rel : path, node_at d (top ++ rel) = Some t →
    ∀ k v, (k, v) ∈ walk (top ++ rel) t ≫= entry_writes d top ↔
             below rel k ∧ view (entry_at d (top ++ k)) = Some v.
Proof.
  induction t as [c r|dd IH] using node_ind'; intros rel Hrel k v.
  { simpl. split; [by intros ?%elem_of_nil|].
    intros [(n & k' & ->)%below_inv Hview]. exfalso.
    rewrite (assoc (++)) in Hview. unfold entry_at in Hview.
    rewrite node_at_app, Hrel in Hview. done. }
  cbn [walk]. rewrite bind_cons, elem_of_app, elem_of_walk_children.
  unfold entry_writes at 1. rewrite elem_of_app, list_elem_of_fmap, list_elem_of_omap.
  unfold join. split.
  - intros [[(n & [= -> ->] & Hn)|(n & Hn & Hw)]|(n & c & Hn & Hw)].
    + apply elem_of_dirnames in Hn as [d' Hn].
      rewrite <- (assoc (++)), relpath_app by by destruct rel.
      split; [by apply below_app|].
      by rewrite (assoc (++)), (entry_at_child _ _ dd), Hn.
    + apply elem_of_filenames in Hn as (c & r & Hn).
      rewrite (entry_at_child _ _ dd), Hn in Hw by done. simpl in Hw.
      destruct r; [|done]. injection Hw as <- <-.
      rewrite <- (assoc (++)), relpath_app by by destruct rel.
      split; [by apply below_app|].
      by rewrite (assoc (++)), (entry_at_child _ _ dd), Hn.
    + rewrite <- (assoc (++)) in Hw. apply (IH n c Hn (rel ++ [n])) in Hw.
      * destruct Hw as [[Hpre Hne] Hv]. split; [|done]. split.
        -- etrans; [|done]. by apply prefix_app_r.
        -- intros ->. by apply prefix_snoc_not in Hpre.
      * by rewrite (assoc (++)), (node_at_child _ _ dd).
  - intros [(n & k' & ->)%below_inv Hview].
    destruct (dd !! n) as [c|] eqn:Hn.
    2:{ rewrite (assoc (++)), (entry_at_sub _ _ _ dd) in Hview by done.
        unfold entry_at in Hview. simpl in Hview. by rewrite Hn in Hview. }
    destruct k' as [|n' k'].
    + left. rewrite (assoc (++)), (entry_at_child _ _ dd), Hn in Hview by done.
      destruct c as [c r|d']; simpl in Hview.
      * right. exists n. split; [apply elem_of_filenames; eauto|].
        rewrite (entry_at_child _ _ dd), Hn by done. simpl.
        destruct r; [|done]. injection Hview as <-.
        by rewrite <- (assoc (++)), relpath_app by by destruct rel.
      * left. exists n. split; [|apply elem_of_dirnames; eauto].
        injection Hview as <-.
        by rewrite <- (assoc (++)), relpath_app by by destruct rel.
    + right. exists n, c. split; [done|].
      rewrite <- (assoc (++)). apply (IH n c Hn (rel ++ [n])).
      * by rewrite (assoc (++)), (node_at_child _ _ dd).
      * split; [|done]. change (n :: n' :: k') with ([n] ++ n' :: k').
        rewrite (assoc (++)). by apply below_app.
Qed.

End Walk.

Section ScanSpec.

Context `{HashFunction}.

Lemma walk_errors_spec (d : gmap string node) (top : path) (t : node) :
  ∀ rel : path, node_at d (top ++ rel) = Some t →
    ∀ r, r ∈ walk (top ++ rel) t ≫= entry_errors d ↔
           ∃ k c, below rel k
                  ∧ entry_at d (top ++ k) = Some (FileE c false)
                  ∧ r = scan_error (top ++ k) PermissionError.
Proof.
  induction t as [c b|dd IH] using node_ind'; intros rel Hrel r.
  { simpl. split; [by intros ?%elem_of_nil|].
    intros (k & c' & (n & k' & ->)%below_inv & Hk & _). exfalso.
    rewrite (assoc (++)) in Hk. unfold entry_at in Hk.
    rewrite node_at_app, Hrel in Hk. done. }
  cbn [walk]. rewrite bind_cons, elem_of_app, elem_of_walk_children.
  unfold entry_errors at 1. rewrite list_elem_of_omap.
  unfold join, read_error. split.
  - intros [(n & Hn & Hr)|(n & c & Hn & Hr)].
    + apply elem_of_filenames in Hn as (c & b & Hn).
      rewrite (entry_at_child _ _ dd), Hn in Hr by done. simpl in Hr.
      destruct b; [done|]. injection Hr as <-.
      exists (rel ++ [n]), c. split; [by apply below_app|].
      rewrite !(assoc (++)). by rewrite (entry_at_child _ _ dd), Hn.
    + rewrite <- (assoc (++)) in Hr. apply (IH n c Hn (rel ++ [n])) in Hr.
      * destruct Hr as (k & c' & [Hpre Hne] & Hk & ->). exists k, c'.
        split_and!; [|done..]. split.
        -- etrans; [|done]. by apply prefix_app_r.
        -- intros ->. by apply prefix_snoc_not in Hpre.
      * by rewrite (assoc (++)), (node_at_child _ _ dd).
  - intros (k & c' & (n & k' & ->)%below_inv & Hk & ->).
    destruct (dd !! n) as [c|] eqn:Hn.
    2:{ rewrite (assoc (++)), (entry_at_sub _ _ _ dd) in Hk by done.
        unfold entry_at in Hk. simpl in Hk. by rewrite Hn in Hk. }
    destruct k' as [|n' k'].
    + left. exists n. rewrite !(assoc (++)) in *.
      rewrite (entry_at_child _ _ dd), Hn in Hk |- * by done.
      destruct c as [c b|d']; simpl in *; [|done].
      injection Hk as -> ->. split; [apply elem_of_filenames; eauto|done].
    + right. exists n, c. split; [done|].
      rewrite <- (assoc (++)). apply (IH n c Hn (rel ++ [n])).
      * by rewrite (assoc (++)), (node_at_child _ _ dd).
      * exists (rel ++ n :: n' :: k'), c'. split_and!; [|done..].
        change (n :: n' :: k') with ([n] ++ n' :: k').
        rewrite (assoc (++)). by apply below_app.
Qed.

(** A scan never raises and leaves the filesystem as it is. *)
Lemma process_directory_run (source_path : path) (w : world) :
  process_directory source_path w =
    (Ok (scan (fs w) source_path),
     World (fs w) (log w ++ scan_errors (fs w) source_path)).
Proof.
  destruct w as [d lg]. unfold process_directory, os_walk, get_fs.
  unfold mbind, M_bind, mret, M_ret. cbn [fs log].
  by rewrite scan_entries_writes.
Qed.

Lemma elem_of_scan_writes (d : gmap string node) (top k : path) v :
  (k, v) ∈ walk_from d top ≫= entry_writes d top ↔
    k ≠ [] ∧ view (entry_at d (top ++ k)) = Some v.
Proof.
  unfold walk_from. destruct (node_at d top) as [t|] eqn:Htop.
  - pose proof (walk_writes_spec d top t []) as Hspec.
    rewrite app_nil_r in Hspec. rewrite (Hspec Htop). by rewrite below_nil.
  - simpl. split; [by intros ?%elem_of_nil|]. intros [_ Hv]. exfalso.
    unfold entry_at in Hv. by rewrite node_at_app, Htop in Hv.
Qed.

(** The manifest, key by key. *)
Lemma scan_lookup (d : gmap string node) (top k : path) :
  scan d top !! k =
    if decide (k = []) then None else view (entry_at d (top ++ k)).
Proof.
  unfold scan. destruct (decide (k = [])) as [->|Hk].
  - rewrite foldl_insert_pair_lookup_None; [done|].
    intros v. rewrite elem_of_scan_writes. naive_solver.
  - destruct (view (entry_at d (top ++ k))) as [v|] eqn:Hv.
    + apply foldl_insert_pair_lookup.
      * intros k' v1 v2. rewrite !elem_of_scan_writes. naive_solver.
      * by apply elem_of_scan_writes.
    + rewrite foldl_insert_pair_lookup_None; [done|].
      intros v. rewrite elem_of_scan_writes. naive_solver.
Qed.

Lemma elem_of_scan_errors (d : gmap string node) (top : path) r :
  r ∈ scan_errors d top ↔
    ∃ k c, k ≠ [] ∧ entry_at d (top ++ k) = Some (FileE c false)
           ∧ r = scan_error (top ++ k) PermissionError.
Proof.
  unfold scan_errors, walk_from. destruct (node_at d top) as [t|] eqn:Htop.
  - pose proof (walk_errors_spec d top t []) as Hspec.
    rewrite app_nil_r in Hspec. rewrite (Hspec Htop). by setoid_rewrite below_nil.
  - simpl. split; [by intros ?%elem_of_nil|]. intros (k & c & _ & Hk & _). exfalso.
    unfold entry_at in Hk. by rewrite node_at_app, Htop in Hk.
Qed.

End ScanSpec.

(** ** Scanning: the manifest *)

Lemma readable_child (dd : gmap string node) n t :
  readable (Dir dd) = true → dd !! n = Some t → readable t = true.
Proof.
  intros Hr Hn. simpl in Hr.
  rewrite (map_fold_delete_L _ _ n t dd) in Hr; [| |done].
  2:{ intros. by rewrite !andb_assoc, (andb_comm (readable z1)). }
  by apply andb_true_iff in Hr as [? _].
Qed.

Lemma readable_entry (dd : gmap string node) (q : path) c r :
  readable (Dir dd) = true → entry_at dd q = Some (FileE c r) → r = true.
Proof.
  revert dd. induction q as [|n q IH]; intros dd Hr; [done|].
  unfold entry_at. simpl. destruct (dd !! n) as [[c' r'|d']|] eqn:Hn; [| |done].
  - destruct q; [|done]. intros [= <- <-].
    exact (readable_child dd n (File c' r') Hr Hn).
  - apply IH. exact (readable_child dd n (Dir d') Hr Hn).
Qed.

Lemma all_readable_entry (d : gmap string node) (top k : path) c r :
  all_readable d top = true → k ≠ [] →
  entry_at d (top ++ k) = Some (FileE c r) → r = true.
Proof.
  unfold all_readable. intros Hr Hk. unfold entry_at at 1. rewrite node_at_app.
  destruct (node_at d top) as [[c' r'|dd]|]; simpl; [by destruct k| |done].
  by apply readable_entry.
Qed.

(** C3 (as the code has it): scanning a root path that does not exist does
    not fail.  The walk ignores the error of listing the root and yields
    nothing, so the scan returns the empty manifest, logs nothing and
    leaves the world as it is. *)
Theorem process_directory_missing_root `{HashFunction} (w : world) (source_path : path) :
  entry_at (fs w) source_path = None →
  process_directory source_path w = (Ok ∅, w).
Proof.
  intros Hroot. rewrite process_directory_run.
  unfold scan, scan_errors, walk_from. unfold entry_at in Hroot.
  destruct (node_at (fs w) source_path); [done|].
  simpl. rewrite app_nil_r. by destruct w.
Qed.

Lemma process_directory_missing_root_witness :
  entry_at ∅ ["source"%string] = None
  ∧ process_directory ["source"%string] (World ∅ []) = (Ok ∅, World ∅ []).
Proof.
  split; [reflexivity|].
  apply (process_directory_missing_root (World ∅ []) ["source"%string]).
  reflexivity.
Defined.

(** C3, counterexample: on a filesystem without the root, the scan returns
    a manifest (the empty one) instead of raising. *)
Lemma process_directory_missing_root_returns :
  entry_at ∅ ["source"%string] = None
  ∧ ¬ (∃ e, (process_directory ["source"%string] (World ∅ [])).1 = Raise e).
Proof.
  split; [reflexivity|]. intros [e He].
  rewrite process_directory_run in He. discriminate He.
Qed.

(** C6: when no file of the tree refuses to be read, the manifest has the
    digest of every file under its path relative to the root, the
    directory marker under the relative path of every directory other than
    the root, and no other key; in particular the root is not a key.  The
    scan logs nothing. *)
Theorem process_directory_manifest `{HashFunction} (w : world) (source_path : path) :
  all_readable (fs w) source_path = true →
  ∃ hash_dict,
    process_directory source_path w = (Ok hash_dict, w)
    ∧ hash_dict !! [] = None
    ∧ ∀ k, k ≠ [] →
        hash_dict !! k =
          match entry_at (fs w) (source_path ++ k) with
          | Some (FileE c _) => Some (Some (hexdigest (update hash_function c)))
          | Some DirE => Some None
          | None => None
          end.
Proof.
  intros Hr. exists (scan (fs w) source_path). split_and!.
  - rewrite process_directory_run.
    assert (scan_errors (fs w) source_path = []) as ->.
    { apply elem_of_nil_inv. intros r (k & c & Hk & Hfile & _)%elem_of_scan_errors.
      by apply (all_readable_entry _ _ _ _ _ Hr Hk) in Hfile. }
    rewrite app_nil_r. by destruct w.
  - by rewrite scan_lookup.
  - intros k Hk. rewrite scan_lookup, decide_False by done.
    destruct (entry_at (fs w) (source_path ++ k)) as [[|c r]|] eqn:Hentry; [done| |done].
    by apply (all_readable_entry _ _ _ _ _ Hr Hk) in Hentry as ->.
Qed.

(** C7: a file that cannot be hashed does not stop the scan.  The scan
    returns normally, the key of that file is not in the manifest, the
    exception is logged, and every other key is recorded as usual. *)
Theorem process_directory_unreadable_file `{HashFunction}
    (w : world) (source_path k : path) (c : bytes) :
  k ≠ [] →
  entry_at (fs w) (source_path ++ k) = Some (FileE c false) →
  ∃ hash_dict lg,
    process_directory source_path w = (Ok hash_dict, World (fs w) (log w ++ lg))
    ∧ hash_dict !! k = None
    ∧ scan_error (source_path ++ k) PermissionError ∈ lg
    ∧ ∀ k', k' ≠ [] → k' ≠ k →
        hash_dict !! k' = view (entry_at (fs w) (source_path ++ k')).
Proof.
  intros Hk Hfile.
  exists (scan (fs w) source_path), (scan_errors (fs w) source_path). split_and!.
  - apply process_directory_run.
  - by rewrite scan_lookup, decide_False, Hfile.
  - apply elem_of_scan_errors. eauto.
  - intros k' Hk' _. by rewrite scan_lookup, decide_False.
Qed.

(** C10: in a manifest returned by a scan, a key maps to the marker [None]
    exactly when it is the relative path of a directory, and to a digest
    exactly when it is the relative path of a file that could be read; the
    digest is then the lowercase hexadecimal digest of the content.  The
    kind of an entry is thus read off from whether its value is [None]. *)
Theorem process_directory_well_formed `{HashFunction}
    (w : world) (source_path k : path) :
  ∃ hash_dict lg,
    process_directory source_path w = (Ok hash_dict, World (fs w) (log w ++ lg))
    ∧ (hash_dict !! k = Some None ↔
         k ≠ [] ∧ entry_at (fs w) (source_path ++ k) = Some DirE)
    ∧ (∀ file_hash, hash_dict !! k = Some (Some file_hash) ↔
         k ≠ [] ∧ ∃ c, entry_at (fs w) (source_path ++ k) = Some (FileE c true)
                       ∧ file_hash = hexdigest (update hash_function c))
    ∧ (∀ file_hash, hash_dict !! k = Some (Some file_hash) →
         all_chars is_lower_hex file_hash = true).
Proof.
  exists (scan (fs w) source_path), (scan_errors (fs w) source_path).
  split; [apply process_directory_run|].
  rewrite scan_lookup. destruct (decide (k = [])) as [->|Hk].
  { split_and!; [naive_solver| |done]. intros ?. naive_solver. }
  destruct (entry_at (fs w) (source_path ++ k)) as [[|c [|]]|]; simpl.
  - split_and!; [naive_solver| |done]. intros ?. naive_solver.
  - split_and!; [naive_solver| |].
    + intros ?. naive_solver.
    + intros ? [= <-]. apply hex_lower.
  - split_and!; [naive_solver| |done]. intros ?. naive_solver.
  - split_and!; [naive_solver| |done]. intros ?. naive_solver.
Qed.

(** ** Mutations of the tree, path by path *)

Lemma entry_at_nil (d : gmap string node) : entry_at d [] = Some DirE.
Proof. done. Qed.

Lemma entry_at_cons (d : gmap string node) n (q : path) :
  entry_at d (n :: q) =
    match d !! n with
    | None => None
    | Some (File c r) => match q with [] => Some (FileE c r) | _ => None end
    | Some (Dir d') => entry_at d' q
    end.
Proof.
  unfold entry_at. simpl. destruct (d !! n) as [[c r|d']|]; [|done..].
  by destruct q.
Qed.

Lemma entry_at_empty (q : path) : q ≠ [] → entry_at ∅ q = None.
Proof. destruct q; [done|]. intros _. by rewrite entry_at_cons, lookup_empty. Qed.

Lemma unlink_spec (d : gmap string node) (p q : path) :
  p ≠ [] →
  entry_at (unlink d p) q = if decide (p `prefix_of` q) then None else entry_at d q.
Proof.
  revert d q. induction p as [|n p IH]; intros d q Hp; [done|].
  destruct q as [|m q].
  { rewrite decide_False by apply prefix_nil_not. done. }
  rewrite !entry_at_cons. simpl.
  destruct p as [|n' p].
  - destruct (decide (n = m)) as [->|Hne].
    + rewrite lookup_delete_eq, decide_True; [done|]. apply prefix_cons, prefix_nil.
    + rewrite lookup_delete_ne, decide_False; [done| |done].
      by intros ?%prefix_cons_inv_1.
  - destruct (decide (n = m)) as [->|Hne].
    + destruct (d !! m) as [[c r|d']|] eqn:Hm.
      * rewrite Hm. case_decide as Hpre; [|done].
        apply prefix_cons_inv_2 in Hpre. destruct q; [|done].
        by apply prefix_nil_not in Hpre.
      * rewrite lookup_insert_eq, IH by done.
        case_decide as H1; case_decide as H2; try done.
        -- exfalso. apply H2. by apply prefix_cons.
        -- exfalso. apply H1. by apply prefix_cons_inv_2 in H2.
      * rewrite Hm. by case_decide.
    + rewrite decide_False by by intros ?%prefix_cons_inv_1.
      destruct (d !! n) as [[c r|d']|]; [done| |done].
      by rewrite lookup_insert_ne.
Qed.

Lemma makedirs_spec (d : gmap string node) (p : path) :
  (∀ x c r, x `prefix_of` p → entry_at d x ≠ Some (FileE c r)) →
  ∃ d', makedirs d p = Ok d'
        ∧ ∀ q, entry_at d' q =
               if decide (q `prefix_of` p) then Some DirE else entry_at d q.
Proof.
  revert d. induction p as [|n p IH]; intros d Hfree.
  { exists d. split; [done|]. intros q. case_decide as Hq; [|done].
    by apply prefix_nil_inv in Hq as ->. }
  assert (∀ d0, (d !! n = None ∧ d0 = ∅) ∨ d !! n = Some (Dir d0) →
            ∀ x c r, x `prefix_of` p → entry_at d0 x ≠ Some (FileE c r)) as Hsub.
  { intros d0 Hd0 x c r Hx Hentry.
    destruct Hd0 as [[Hn ->]|Hn].
    - destruct x; [done|]. by rewrite entry_at_empty in Hentry.
    - apply (Hfree (n :: x) c r); [by apply prefix_cons|].
      by rewrite entry_at_cons, Hn. }
  assert (∀ d0 d1, (d !! n = None ∧ d0 = ∅) ∨ d !! n = Some (Dir d0) →
            (∀ q, entry_at d1 q =
                  if decide (q `prefix_of` p) then Some DirE else entry_at d0 q) →
            ∀ q, entry_at (<[n := Dir d1]> d) q =
                 if decide (q `prefix_of` n :: p) then Some DirE else entry_at d q)
    as Hins.
  { intros d0 d1 Hd0 Hd1 [|m q].
    { by rewrite decide_True by apply prefix_nil. }
    rewrite !entry_at_cons. destruct (decide (n = m)) as [->|Hne].
    - rewrite lookup_insert_eq, Hd1.
      case_decide as H1; case_decide as H2; try done.
      + exfalso. apply H2. by apply prefix_cons.
      + exfalso. apply H1. by apply prefix_cons_inv_2 in H2.
      + destruct Hd0 as [[-> ->]| ->]; [|done].
        destruct q; [|by rewrite entry_at_empty].
        exfalso. apply H1, prefix_nil.
    - rewrite lookup_insert_ne by done.
      rewrite decide_False by by intros ?%prefix_cons_inv_1. done. }
  simpl. destruct (d !! n) as [[c r|d0]|] eqn:Hn.
  - exfalso. apply (Hfree [n] c r); [apply prefix_cons, prefix_nil|].
    by rewrite entry_at_cons, Hn.
  - destruct (IH d0) as (d1 & -> & Hd1); [by apply Hsub; right|].
    exists (<[n := Dir d1]> d). split; [done|]. apply (Hins d0); auto.
  - destruct (IH ∅) as (d1 & -> & Hd1); [by apply Hsub; left|].
    exists (<[n := Dir d1]> d). split; [done|]. apply (Hins ∅); auto.
Qed.

Lemma write_file_spec (d : gmap string node) (p : path) (c : bytes) (r : bool) :
  p ≠ [] →
  entry_at d (removelast p) = Some DirE →
  entry_at d p ≠ Some DirE →
  ∃ d', write_file d p c r = Ok d'
        ∧ ∀ q, entry_at d' q =
               if decide (q = p) then Some (FileE c r) else entry_at d q.
Proof.
  revert d. induction p as [|n p IH]; intros d Hp Hparent Hnodir; [done|].
  destruct p as [|n' p].
  - exists (<[n := File c r]> d). split.
    { simpl. rewrite entry_at_cons in Hnodir. by destruct (d !! n) as [[]|]. }
    intros [|m q]; [done|]. rewrite !entry_at_cons.
    destruct (decide (n = m)) as [->|Hne].
    + rewrite lookup_insert_eq. destruct q as [|m' q]; [by rewrite decide_True|].
      rewrite decide_False by done. rewrite entry_at_cons in Hnodir.
      by destruct (d !! m) as [[]|].
    + rewrite lookup_insert_ne by done. rewrite decide_False by congruence. done.
  - change (removelast (n :: n' :: p)) with (n :: removelast (n' :: p)) in Hparent.
    rewrite entry_at_cons in Hparent, Hnodir.
    destruct (d !! n) as [[c0 r0|d0]|] eqn:Hn; [by destruct (removelast _)| |done].
    destruct (IH d0) as (d1 & Hw & Hd1); [done..|].
    exists (<[n := Dir d1]> d). split.
    { cbn [write_file]. rewrite Hn. cbn [write_file] in Hw. by rewrite Hw. }
    intros [|m q]; [done|]. rewrite !entry_at_cons.
    destruct (decide (n = m)) as [->|Hne].
    + rewrite lookup_insert_eq, Hd1, Hn.
      case_decide as H1; case_decide as H2; congruence.
    + rewrite lookup_insert_ne by done. rewrite decide_False by congruence. done.
Qed.

(** ** Removing a path from the replica *)

Lemma M_bind_run {A B} (m : M A) (k : A → M B) (w : world) :
  (m ≫= k) w =
    match m w with
    | (Ok a, w') => k a w'
    | (Raise e, w') => (Raise e, w')
    end.
Proof. done. Qed.

Lemma os_path_exists_run (p : path) d lg :
  os_path_exists p (World d lg) = (Ok (exists_ d p), World d lg).
Proof. done. Qed.

Lemma os_path_isdir_run (p : path) d lg :
  os_path_isdir p (World d lg) = (Ok (isdir d p), World d lg).
Proof. done. Qed.

Lemma os_makedirs_run (p : path) d lg :
  os_makedirs p (World d lg) =
    match makedirs d p with
    | Ok d' => (Ok (), World d' lg)
    | Raise e => (Raise e, World d lg)
    end.
Proof.
  unfold os_makedirs. rewrite M_bind_run. cbn [get_fs fs].
  rewrite M_bind_run. unfold lift. by destruct (makedirs d p).
Qed.

Lemma shutil_rmtree_run (p : path) d lg :
  shutil_rmtree p (World d lg) =
    match entry_at d p with
    | Some DirE => (Ok (), World (unlink d p) lg)
    | Some (FileE _ _) => (Raise NotADirectoryError, World d lg)
    | None => (Raise FileNotFoundError, World d lg)
    end.
Proof.
  unfold shutil_rmtree. rewrite M_bind_run. cbn [get_fs fs].
  by destruct (entry_at d p) as [[|c r]|].
Qed.

Lemma os_remove_run (p : path) d lg :
  os_remove p (World d lg) =
    match entry_at d p with
    | Some (FileE _ _) => (Ok (), World (unlink d p) lg)
    | Some DirE => (Raise IsADirectoryError, World d lg)
    | None => (Raise FileNotFoundError, World d lg)
    end.
Proof.
  unfold os_remove. rewrite M_bind_run. cbn [get_fs fs].
  by destruct (entry_at d p) as [[|c r]|].
Qed.

Lemma open_rb_run (p : path) d lg :
  open_rb p (World d lg) =
    match entry_at d p with
    | Some (FileE c true) => (Ok c, World d lg)
    | Some (FileE _ false) => (Raise PermissionError, World d lg)
    | Some DirE => (Raise IsADirectoryError, World d lg)
    | None => (Raise FileNotFoundError, World d lg)
    end.
Proof.
  unfold open_rb. rewrite M_bind_run. cbn [get_fs fs].
  by destruct (entry_at d p) as [[|c [|]]|].
Qed.

Lemma shutil_copy2_run (src dst : path) d lg :
  src ≠ (if isdir d dst then join dst [basename src] else dst) →
  shutil_copy2 src dst (World d lg) =
    match open_rb src (World d lg) with
    | (Ok c, _) =>
        match write_file d (if isdir d dst then join dst [basename src] else dst)
                c true with
        | Ok d' => (Ok (), World d' lg)
        | Raise e => (Raise e, World d lg)
        end
    | (Raise e, _) => (Raise e, World d lg)
    end.
Proof.
  intros Hne. unfold shutil_copy2. rewrite M_bind_run. cbn [get_fs fs].
  rewrite bool_decide_false by done. cbn [andb].
  rewrite M_bind_run, open_rb_run.
  destruct (entry_at d src) as [[|c [|]]|]; done.
Qed.

Lemma remove_file_run (self : FolderSynchronizer) (file : path) (w : world) :
  remove_file self file w =
    (Ok (),
     World (match entry_at (fs w) (replica_folder self ++ file) with
            | Some _ => unlink (fs w) (replica_folder self ++ file)
            | None => fs w
            end) (log w)).
Proof.
  destruct w as [d lg]. unfold remove_file, join. cbn [fs log].
  rewrite M_bind_run, os_path_exists_run. unfold exists_.
  destruct (entry_at d (replica_folder self ++ file)) as [[|c r]|] eqn:Hentry;
    [| |done].
  - rewrite M_bind_run, os_path_isdir_run. unfold isdir. rewrite Hentry.
    by rewrite shutil_rmtree_run, Hentry.
  - rewrite M_bind_run, os_path_isdir_run. unfold isdir. rewrite Hentry.
    by rewrite os_remove_run, Hentry.
Qed.

Lemma entry_at_below_file (d : gmap string node) (p q : path) c r :
  entry_at d p = Some (FileE c r) → p `prefix_of` q → q ≠ p → entry_at d q = None.
Proof.
  intros Hp [q' ->] Hne. destruct (entry_at d (p ++ q')) as [e|] eqn:Hq; [|done].
  assert (q' ≠ []) as Hq' by (intros ->; by rewrite app_nil_r in Hne).
  apply mk_is_Some, entry_at_prefix in Hq; [congruence|done].
Qed.


Lemma removelast_prefix (k : path) :
  k ≠ [] → removelast k `prefix_of` k ∧ removelast k ≠ k.
Proof.
  intros Hne. pose proof (app_removelast_last ""%string Hne) as Heq. split.
  - eexists. exact Heq.
  - intros Heq'. apply (f_equal length) in Heq.
    rewrite length_app, Heq' in Heq. simpl in Heq. lia.
Qed.

Lemma prefix_app_cases (x R k : path) :
  x `prefix_of` R ++ k → x `prefix_of` R ∨ ∃ q, x = R ++ q ∧ q `prefix_of` k.
Proof.
  intros Hx.
  destruct (prefix_weak_total x R (R ++ k)) as [?|[q ->]];
    [done|by apply prefix_app_r|by left|].
  right. exists q. split; [done|]. by apply prefix_app_inv in Hx.
Qed.

Lemma prefix_app_disjoint (S R q k : path) :
  ¬ S `prefix_of` R → ¬ R `prefix_of` S → ¬ S ++ q `prefix_of` R ++ k.
Proof.
  intros HSR HRS Hpre.
  destruct (prefix_weak_total S R (R ++ k)); [|by apply prefix_app_r|done..].
  etrans; [|done]. by apply prefix_app_r.
Qed.

(** ** One pass: the replica converges to the source *)

Section Pass.

Context `{HashFunction}.
Variable d0 : gmap string node.
Variables source replica : path.
Hypothesis Hseparate : separate source replica.
Hypothesis Hkinds : kinds_agree d0 source replica.

Local Abbreviation Inv := (pass_invariant d0 source replica).
Local Abbreviation good := (in_sync d0 source replica).

Lemma source_not_below_replica (q x : path) :
  ¬ (replica `prefix_of` source ++ q ∧ replica ++ x = source ++ q).
Proof.
  intros [_ Heq]. destruct Hseparate as [HSR HRS].
  apply (prefix_app_disjoint source replica q x HSR HRS).
  by rewrite Heq.
Qed.

Lemma source_parent_dir (k q : path) :
  is_Some (entry_at d0 (source ++ k)) → q `prefix_of` k → q ≠ k →
  entry_at d0 (source ++ q) = Some DirE.
Proof.
  intros Hk [q' ->] Hne. rewrite (assoc (++)) in Hk.
  eapply entry_at_prefix; [done|]. intros ->. by rewrite app_nil_r in Hne.
Qed.

Lemma inv_makedirs (d : gmap string node) (k : path) :
  Inv d → entry_at d0 (source ++ k) = Some DirE →
  ∃ d', makedirs d (replica ++ k) = Ok d'
        ∧ Inv d' ∧ (∀ q, good d q → good d' q)
        ∧ entry_at d' (replica ++ k) = Some DirE.
Proof.
  intros (Hsrc & Hrep & Hroot) Hk.
  assert (∀ q, q `prefix_of` k → entry_at d0 (source ++ q) = Some DirE) as Hdirs.
  { intros q Hq. destruct (decide (q = k)) as [->|Hne]; [done|].
    by eapply source_parent_dir. }
  destruct (makedirs_spec d (replica ++ k)) as (d' & Hmk & Hd').
  { intros x c r [Hx|(q & -> & Hq)]%prefix_app_cases; [by apply Hroot|].
    specialize (Hdirs q Hq).
    destruct (Hrep q) as [Heq|[Heq|[Heq _]]]; rewrite Heq; [|by rewrite Hdirs|done].
    intros Hfile. by specialize (Hkinds q _ _ Hdirs Hfile). }
  exists d'. split; [done|].
  assert (∀ q, entry_at d' (source ++ q) = entry_at d (source ++ q)) as Hsrc'.
  { intros q. rewrite Hd', decide_False; [done|].
    destruct Hseparate. by apply prefix_app_disjoint. }
  assert (∀ q, entry_at d' (replica ++ q) =
               if decide (q `prefix_of` k) then Some DirE
               else entry_at d (replica ++ q)) as Hrep'.
  { intros q. rewrite Hd'. case_decide as H1; case_decide as H2; try done.
    - exfalso. apply H2. by apply prefix_app_inv in H1.
    - exfalso. apply H1. by apply prefix_app. }
  split_and!.
  - split_and!.
    + intros q. by rewrite Hsrc'.
    + intros q. rewrite Hrep'. case_decide as Hq; [|done].
      right. left. by rewrite Hdirs.
    + intros x c r Hx. rewrite Hd'. case_decide; [done|]. by apply Hroot.
  - intros q. unfold in_sync. rewrite Hrep'. case_decide as Hq; [|done].
    intros _. by rewrite Hdirs.
  - by rewrite Hrep', decide_True.
Qed.

Lemma inv_copy (d : gmap string node) (k : path) (c : bytes) lg :
  Inv d → entry_at d0 (source ++ k) = Some (FileE c true) → k ≠ [] →
  entry_at d (replica ++ removelast k) = Some DirE →
  ∃ d', shutil_copy2 (source ++ k) (replica ++ k) (World d lg)
          = (Ok (), World d' lg)
        ∧ Inv d' ∧ (∀ q, good d q → good d' q) ∧ good d' k.
Proof.
  intros (Hsrc & Hrep & Hroot) Hk Hne Hparent.
  assert (entry_at d (replica ++ k) ≠ Some DirE) as Hnodir.
  { destruct (Hrep k) as [Heq|[Heq|[Heq _]]]; rewrite Heq; [|by rewrite Hk|done].
    intros Hdir. by specialize (Hkinds k _ _ Hk Hdir). }
  destruct (write_file_spec d (replica ++ k) c true) as (d' & Hw & Hd').
  { intros [_ ?]%app_eq_nil. done. }
  { by rewrite removelast_app. }
  { done. }
  assert (source ++ k ≠ replica ++ k) as Hdiff.
  { intros Heq. apply (source_not_below_replica k k). split; [|done].
    rewrite Heq. by apply prefix_app_r. }
  exists d'. split.
  { rewrite shutil_copy2_run; unfold isdir.
    - rewrite open_rb_run, Hsrc, Hk.
      destruct (entry_at d (replica ++ k)) as [[|]|]; [done|..]; by rewrite Hw.
    - by destruct (entry_at d (replica ++ k)) as [[|]|]. }
  assert (∀ q, entry_at d' (source ++ q) = entry_at d (source ++ q)) as Hsrc'.
  { intros q. rewrite Hd', decide_False; [done|].
    intros Heq. apply (source_not_below_replica q k). split; [|done].
    rewrite Heq. by apply prefix_app_r. }
  assert (∀ q, entry_at d' (replica ++ q) =
               if decide (q = k) then Some (FileE c true)
               else entry_at d (replica ++ q)) as Hrep'.
  { intros q. rewrite Hd'. case_decide as H1; case_decide as H2; try done.
    - exfalso. apply H2. by apply (inj (app replica)).
    - exfalso. apply H1. by rewrite H2. }
  split_and!.
  - split_and!.
    + intros q. by rewrite Hsrc'.
    + intros q. rewrite Hrep'. case_decide as Hq; [|done].
      right. left. by rewrite Hq, Hk.
    + intros x c' r' Hx. rewrite Hd'. case_decide as Heq; [|by apply Hroot].
      exfalso. subst x. apply prefix_length in Hx. rewrite length_app in Hx.
      destruct k; [done|]. simpl in Hx. lia.
  - intros q. unfold in_sync. rewrite Hrep'. case_decide as Hq; [|done].
    intros _. by rewrite Hq, Hk.
  - unfold in_sync. by rewrite Hrep', decide_True, Hk.
Qed.

Lemma inv_remove (self : FolderSynchronizer) (d : gmap string node) (k : path) lg :
  replica_folder self = replica →
  Inv d → k ≠ [] → view (entry_at d0 (source ++ k)) = None →
  ∃ d', remove_file self k (World d lg) = (Ok (), World d' lg)
        ∧ Inv d' ∧ (∀ q, good d q → good d' q) ∧ good d' k.
Proof.
  intros Hself (Hsrc & Hrep & Hroot) Hne Hk.
  rewrite remove_file_run, Hself. cbn [fs log].
  destruct (entry_at d (replica ++ k)) as [e|] eqn:Hentry.
  2:{ exists d. split_and!; [done|done|done|]. unfold in_sync. by rewrite Hentry, Hk. }
  eexists. split; [done|].
  assert (replica ++ k ≠ []) as Hp by (intros [_ ?]%app_eq_nil; done).
  assert (∀ q, k `prefix_of` q → q ≠ [] ∧ view (entry_at d0 (source ++ q)) = None)
    as Hgone.
  { intros q Hq. split; [intros ->; by apply prefix_nil_inv in Hq|].
    destruct (decide (q = k)) as [->|Hqk]; [done|].
    destruct (entry_at d0 (source ++ q)) as [e'|] eqn:Hq'; [|done].
    rewrite (source_parent_dir q k) in Hk; [done|by rewrite Hq'|done|done]. }
  assert (∀ q, entry_at (unlink d (replica ++ k)) (replica ++ q) =
               if decide (k `prefix_of` q) then None
               else entry_at d (replica ++ q)) as Hrep'.
  { intros q. rewrite unlink_spec by done.
    case_decide as H1; case_decide as H2; try done.
    - exfalso. apply H2. by apply prefix_app_inv in H1.
    - exfalso. apply H1. by apply prefix_app. }
  split_and!.
  - split_and!.
    + intros q. rewrite unlink_spec by done. rewrite decide_False; [apply Hsrc|].
      destruct Hseparate. by apply prefix_app_disjoint.
    + intros q. rewrite Hrep'. case_decide as Hq; [|done].
      right. right. split; [done|]. by apply Hgone.
    + intros x c r Hx. rewrite unlink_spec by done. case_decide; [done|].
      by apply Hroot.
  - intros q. unfold in_sync. rewrite Hrep'. case_decide as Hq; [|done].
    intros _. by destruct (Hgone q Hq) as [_ ->].
  - unfold in_sync. by rewrite Hrep', decide_True, Hk.
Qed.

End Pass.

Section PassLoops.

Context `{HashFunction}.
Variable set_iter : gset path → list path.
Hypothesis set_iter_perm : ∀ X, set_iter X ≡ₚ elements X.
Variable d0 : gmap string node.
Variable self : FolderSynchronizer.
Hypothesis Hseparate : separate (source_folder self) (replica_folder self).
Hypothesis Hkinds : kinds_agree d0 (source_folder self) (replica_folder self).

Local Abbreviation source := (source_folder self).
Local Abbreviation replica := (replica_folder self).
Local Abbreviation Inv := (pass_invariant d0 source replica).
Local Abbreviation good := (in_sync d0 source replica).

Local Abbreviation step_ok := (pass_step d0 source replica).

Lemma add_file_step (k : path) :
  k ≠ [] → is_Some (view (entry_at d0 (source ++ k))) → step_ok (add_file self) k.
Proof.
  intros Hne Hvis d lg HInv.
  unfold add_file, join. rewrite M_bind_run, os_path_isdir_run. unfold isdir.
  destruct HInv as (Hsrc & Hrep & Hroot). rewrite Hsrc.
  destruct (entry_at d0 (source ++ k)) as [[|c [|]]|] eqn:Hk;
    [| |by destruct Hvis..].
  - rewrite os_makedirs_run.
    destruct (inv_makedirs d0 source replica Hseparate Hkinds d k)
      as (d' & -> & HInv' & Hgood & Hdir); [done..|].
    exists d'. split_and!; [done..|]. unfold in_sync. by rewrite Hdir, Hk.
  - rewrite M_bind_run, os_makedirs_run, removelast_app by done.
    destruct (inv_makedirs d0 source replica Hseparate Hkinds d (removelast k))
      as (d1 & -> & HInv1 & Hgood1 & Hdir); [done| |].
    { destruct (removelast_prefix k Hne).
      apply (source_parent_dir d0 source k); [by rewrite Hk|done..]. }
    unfold copy_file.
    destruct (inv_copy d0 source replica Hseparate Hkinds d1 k c lg)
      as (d' & -> & HInv' & Hgood & Hk'); [done..|].
    exists d'. split_and!; [done..| |done]. auto.
Qed.

Lemma modify_file_step (k : path) (c : bytes) :
  k ≠ [] → entry_at d0 (source ++ k) = Some (FileE c true) →
  is_Some (entry_at d0 (replica ++ k)) → step_ok (modify_file self) k.
Proof.
  intros Hne Hk Hrk d lg HInv.
  unfold modify_file, copy_file, join.
  apply (inv_copy d0 source replica Hseparate Hkinds d k c lg); [done..|].
  destruct (removelast_prefix k Hne) as [Hpre Hneq].
  assert (entry_at d0 (source ++ removelast k) = Some DirE) as Hsp.
  { apply (source_parent_dir d0 source k); [by rewrite Hk|done..]. }
  assert (entry_at d0 (replica ++ removelast k) = Some DirE) as Hrp.
  { by apply (source_parent_dir d0 replica k). }
  destruct HInv as (Hsrc & Hrep & Hroot).
  destruct (Hrep (removelast k)) as [Heq|[Heq|(_ & _ & Hview)]];
    [by rewrite Heq..|].
  by rewrite Hsp in Hview.
Qed.

Lemma remove_file_step (k : path) :
  k ≠ [] → view (entry_at d0 (source ++ k)) = None → step_ok (remove_file self) k.
Proof.
  intros Hne Hk d lg HInv.
  by apply (inv_remove d0 source replica Hseparate self d k lg).
Qed.

Lemma for_each_steps (body : path → M unit) (l : list path) :
  (∀ k, k ∈ l → step_ok body k) →
  ∀ d lg, Inv d →
    ∃ d', for_each l body (World d lg) = (Ok (), World d' lg)
          ∧ Inv d' ∧ (∀ q, good d q → good d' q) ∧ (∀ k, k ∈ l → good d' k).
Proof.
  induction l as [|k l IH]; intros Hbody d lg HInv.
  { exists d. split_and!; [done..|]. by intros k ?%elem_of_nil. }
  destruct (Hbody k (list_elem_of_here _ _) d lg HInv) as (d1 & Hrun & HInv1 & Hgood1 & Hk).
  destruct (IH (λ k' Hk', Hbody k' (list_elem_of_further _ _ _ Hk')) d1 lg HInv1)
    as (d' & Hrun' & HInv' & Hgood' & Hl).
  exists d'. split_and!.
  - cbn [for_each]. by rewrite M_bind_run, Hrun.
  - done.
  - auto.
  - intros k' [->|Hk']%elem_of_cons; auto.
Qed.

Lemma apply_category_steps (header : string) (files : gset path)
    (body : path → M unit) :
  (∀ k, k ∈ files → step_ok body k) →
  ∀ d lg, Inv d →
    ∃ d' lg', apply_category set_iter header files body (World d lg)
                = (Ok (), World d' (lg ++ lg'))
              ∧ Inv d' ∧ (∀ q, good d q → good d' q)
              ∧ (∀ k, k ∈ files → good d' k).
Proof.
  intros Hbody d lg HInv. unfold apply_category.
  destruct (decide (files = ∅)) as [->|Hne].
  { exists d, []. rewrite app_nil_r. split_and!; [done..|]. set_solver. }
  assert (∀ k, k ∈ set_iter files ↔ k ∈ files) as Hiter.
  { intros k. by rewrite set_iter_perm, elem_of_elements. }
  destruct (for_each_steps body (set_iter files)) with (d := d) (lg := lg)
    as (d' & Hrun & HInv' & Hgood & Hfiles); [|done|].
  { intros k Hk. by apply Hbody, Hiter. }
  exists d', [INFO (summary header (set_iter files))]. split_and!.
  - by rewrite M_bind_run, Hrun.
  - done.
  - done.
  - intros k Hk. by apply Hfiles, Hiter.
Qed.

End PassLoops.

Section Convergence.

Context `{HashFunction}.
Variable set_iter : gset path → list path.
Hypothesis set_iter_perm : ∀ X, set_iter X ≡ₚ elements X.

Lemma scan_lookup_Some (d : gmap string node) (top k : path) v :
  scan d top !! k = Some v → k ≠ [] ∧ view (entry_at d (top ++ k)) = Some v.
Proof. rewrite scan_lookup. by case_decide. Qed.

Lemma scan_lookup_None (d : gmap string node) (top k : path) :
  scan d top !! k = None → k ≠ [] → view (entry_at d (top ++ k)) = None.
Proof. rewrite scan_lookup. by case_decide. Qed.

Lemma view_Some_entry (e : option entry) v : view e = Some v → is_Some e.
Proof. destruct e; [eauto|done]. Qed.

(** Applying the diff of the two scans brings every path in sync. *)
Lemma compare_hashes_in_sync (self : FolderSynchronizer) (d0 : gmap string node) lg :
  separate (source_folder self) (replica_folder self) →
  kinds_agree d0 (source_folder self) (replica_folder self) →
  creatable d0 (replica_folder self) →
  source_hash self = scan d0 (source_folder self) →
  replica_hash self = scan d0 (replica_folder self) →
  ∃ d' lg',
    compare_hashes set_iter self (World d0 lg) = (Ok (), World d' (lg ++ lg'))
    ∧ pass_invariant d0 (source_folder self) (replica_folder self) d'
    ∧ ∀ q, q ≠ [] → in_sync d0 (source_folder self) (replica_folder self) d' q.
Proof.
  intros Hseparate Hkinds Hroot Hsh Hrh. unfold compare_hashes. rewrite Hsh, Hrh.
  set (sh := scan d0 (source_folder self)).
  set (rh := scan d0 (replica_folder self)).
  assert (pass_invariant d0 (source_folder self) (replica_folder self) d0) as HInv0.
  { split_and!; [done| |done]. intros q. by left. }
  destruct (apply_category_steps set_iter set_iter_perm d0 self Hseparate Hkinds
              "Added files:" (added_files sh rh) (add_file self))
    with (d := d0) (lg := lg) as (d1 & lg1 & Hrun1 & HInv1 & Hkeep1 & Hadded);
    [|done|].
  { intros k [[v Hk] _]%elem_of_added_files.
    apply scan_lookup_Some in Hk as [Hne Hv].
    apply add_file_step; [done..|]. by rewrite Hv. }
  destruct (apply_category_steps set_iter set_iter_perm d0 self Hseparate Hkinds
              "Removed files:" (removed_files sh rh) (remove_file self))
    with (d := d1) (lg := lg ++ lg1) as (d2 & lg2 & Hrun2 & HInv2 & Hkeep2 & Hremoved);
    [|done|].
  { intros k [[v Hk] Hnot]%elem_of_removed_files.
    apply scan_lookup_Some in Hk as [Hne Hv].
    apply remove_file_step; [done..|]. by apply scan_lookup_None. }
  destruct (apply_category_steps set_iter set_iter_perm d0 self Hseparate Hkinds
              "Modified files:" (modified_files sh rh) (modify_file self))
    with (d := d2) (lg := (lg ++ lg1) ++ lg2)
    as (d3 & lg3 & Hrun3 & HInv3 & Hkeep3 & Hmodified); [|done|].
  { intros k (v1 & v2 & Hk1 & Hk2 & Hdiff)%elem_of_modified_files.
    apply scan_lookup_Some in Hk1 as [Hne Hv1].
    apply scan_lookup_Some in Hk2 as [_ Hv2].
    destruct (view_Some_entry _ _ Hv1) as [e1 He1].
    destruct (view_Some_entry _ _ Hv2) as [e2 He2].
    pose proof (Hkinds k e1 e2 He1 He2) as Hsame.
    rewrite He1 in Hv1. rewrite He2 in Hv2.
    destruct e1 as [|c1 [|]], e2 as [|c2 [|]]; simplify_eq/=.
    eapply modify_file_step; [done..|]. by rewrite He2. }
  exists d3, (lg1 ++ lg2 ++ lg3). split_and!.
  - rewrite M_bind_run, Hrun1, M_bind_run, Hrun2, Hrun3. by rewrite !(assoc (++)).
  - done.
  - intros q Hq.
    destruct (sh !! q) as [v1|] eqn:Hs, (rh !! q) as [v2|] eqn:Hr.
    + destruct (decide (v1 = v2)) as [->|Hdiff].
      * apply Hkeep3, Hkeep2, Hkeep1. unfold in_sync.
        apply scan_lookup_Some in Hs as [_ ->].
        by apply scan_lookup_Some in Hr as [_ ->].
      * apply Hmodified, elem_of_modified_files. by exists v1, v2.
    + apply Hkeep3, Hkeep2, Hadded, elem_of_added_files. by rewrite Hs.
    + apply Hkeep3, Hremoved, elem_of_removed_files. by rewrite Hr.
    + apply Hkeep3, Hkeep2, Hkeep1. unfold in_sync.
      rewrite (scan_lookup_None _ _ _ Hs Hq).
      by rewrite (scan_lookup_None _ _ _ Hr Hq).
Qed.

Lemma scan_in_sync (self : FolderSynchronizer) (d0 d' : gmap string node) :
  pass_invariant d0 (source_folder self) (replica_folder self) d' →
  (∀ q, q ≠ [] → in_sync d0 (source_folder self) (replica_folder self) d' q) →
  scan d' (replica_folder self) = scan d0 (source_folder self)
  ∧ scan d' (source_folder self) = scan d0 (source_folder self).
Proof.
  intros (Hsrc & _ & _) Hsync. split; apply map_eq; intros q; rewrite !scan_lookup.
  - case_decide; [done|]. by apply Hsync.
  - case_decide; [done|]. by rewrite Hsrc.
Qed.

(** One pass, then a fresh scan of both folders. *)
Lemma sync_folders_run (self : FolderSynchronizer) (w : world) :
  separate (source_folder self) (replica_folder self) →
  kinds_agree (fs w) (source_folder self) (replica_folder self) →
  creatable (fs w) (replica_folder self) →
  ∃ self' d' lg',
    sync_folders set_iter self w = (Ok self', World d' (log w ++ lg'))
    ∧ source_folder self' = source_folder self
    ∧ replica_folder self' = replica_folder self
    ∧ source_hash self' = scan (fs w) (source_folder self)
    ∧ replica_hash self' = scan (fs w) (replica_folder self)
    ∧ scan d' (replica_folder self) = scan (fs w) (source_folder self)
    ∧ scan d' (source_folder self) = scan (fs w) (source_folder self)
    ∧ pass_invariant (fs w) (source_folder self) (replica_folder self) d'.
Proof.
  intros Hseparate Hkinds Hroot. destruct w as [d0 lg]. cbn [fs log] in *.
  unfold sync_folders. rewrite M_bind_run, process_directory_run. cbn [fs log].
  rewrite M_bind_run, process_directory_run. cbn [fs log
    source_hash replica_hash source_folder replica_folder].
  set (self' := {| source_hash := scan d0 (source_folder self);
                   replica_hash := scan d0 (replica_folder self);
                   source_folder := source_folder self;
                   replica_folder := replica_folder self |}).
  destruct (compare_hashes_in_sync self' d0
              ((lg ++ scan_errors d0 (source_folder self))
                  ++ scan_errors d0 (replica_folder self)))
    as (d' & lg' & Hrun & HInv & Hsync); [done..|].
  destruct (scan_in_sync self' d0 d' HInv Hsync) as [Hr Hs].
  exists self', d', (scan_errors d0 (source_folder self)
                      ++ scan_errors d0 (replica_folder self) ++ lg').
  split_and!; [|done..].
  rewrite M_bind_run, Hrun. by rewrite !(assoc (++)).
Qed.

End Convergence.

(** ** The executable hypotheses are sound *)

Lemma kinds_agree_node_child (d1 d2 : gmap string node) n c1 c2 :
  kinds_agree_node (Dir d1) (Dir d2) = true →
  d1 !! n = Some c1 → d2 !! n = Some c2 → kinds_agree_node c1 c2 = true.
Proof.
  intros Hagree H1 H2. simpl in Hagree.
  rewrite (map_fold_delete_L _ _ n c1 d1) in Hagree; [| |done].
  - rewrite H2 in Hagree. by apply andb_true_iff in Hagree as [? _].
  - intros. rewrite !andb_assoc. f_equal. apply andb_comm.
Qed.

Lemma entry_at_node_entry (d : gmap string node) (p k : path) :
  entry_at d (p ++ k) = t ← node_at d p; node_entry t k.
Proof.
  unfold entry_at. rewrite node_at_app.
  destruct (node_at d p) as [[c r|dd]|]; simpl; [|done..]. by destruct k.
Qed.

Lemma kinds_agree_node_sound (k : path) :
  ∀ t1 t2 e1 e2,
    kinds_agree_node t1 t2 = true →
    node_entry t1 k = Some e1 → node_entry t2 k = Some e2 → is_dir e1 = is_dir e2.
Proof.
  induction k as [|n k IH]; intros t1 t2 e1 e2 Hagree H1 H2.
  { destruct t1, t2; try discriminate Hagree; cbn in H1, H2; by simplify_eq. }
  destruct t1 as [|d1], t2 as [|d2]; simpl in H1, H2; try done.
  rewrite entry_at_cons in H1, H2.
  destruct (d1 !! n) as [c1|] eqn:Hc1; [|done].
  destruct (d2 !! n) as [c2|] eqn:Hc2; [|by destruct c1].
  apply (IH c1 c2); [by eapply kinds_agree_node_child| |].
  - by destruct c1.
  - by destruct c2.
Qed.

Lemma kinds_agree_check_sound (d : gmap string node) (source replica : path) :
  kinds_agree_check d source replica = true → kinds_agree d source replica.
Proof.
  unfold kinds_agree_check. intros Hcheck k e1 e2.
  rewrite !entry_at_node_entry.
  destruct (node_at d source) as [t1|]; [|done].
  destruct (node_at d replica) as [t2|]; [|done].
  simpl. by apply kinds_agree_node_sound.
Qed.

Lemma creatable_check_sound (d : gmap string node) (p : path) :
  creatable_check d p = true → creatable d p.
Proof.
  revert d. induction p as [|n p IH]; intros d Hcheck x c r Hx.
  { by apply prefix_nil_inv in Hx as ->. }
  destruct x as [|m x]; [done|].
  pose proof (prefix_cons_inv_1 _ _ _ _ Hx) as ->.
  apply prefix_cons_inv_2 in Hx. rewrite entry_at_cons. simpl in Hcheck.
  destruct (d !! n) as [[c' r'|d']|]; [done| |done].
  by apply IH.
Qed.

Lemma separate_example : separate ["source"%string] ["replica"%string].
Proof. split; by intros ?%prefix_cons_inv_1. Qed.

(** ** The claims about a whole pass *)




Lemma compare_hashes_same (set_iter : gset path → list path)
    (self : FolderSynchronizer) (w : world) :
  source_hash self = replica_hash self → compare_hashes set_iter self w = (Ok (), w).
Proof.
  intros Hsame. unfold compare_hashes. rewrite Hsame.
  destruct (diff_self_empty (replica_hash self)) as (-> & -> & ->).
  unfold apply_category. by rewrite decide_True by done.
Qed.

(** A pass whose two scans return the same manifest computes three empty
    sets, changes nothing in the filesystem and logs no summary. *)
Lemma sync_folders_same `{HashFunction} (set_iter : gset path → list path)
    (self : FolderSynchronizer) (w : world) :
  (process_directory (source_folder self) w).1
    = (process_directory (replica_folder self) w).1 →
  ∃ self',
    sync_folders set_iter self w
      = (Ok self',
         World (fs w) (log w ++ scan_errors (fs w) (source_folder self)
                            ++ scan_errors (fs w) (replica_folder self)))
    ∧ added_files (source_hash self') (replica_hash self') = ∅
    ∧ removed_files (source_hash self') (replica_hash self') = ∅
    ∧ modified_files (source_hash self') (replica_hash self') = ∅.
Proof.
  rewrite !process_directory_run. cbn [fst]. intros [= Hsame].
  eexists. split.
  - unfold sync_folders. rewrite M_bind_run, process_directory_run.
    rewrite M_bind_run, process_directory_run. cbn [fs log replica_folder].
    rewrite M_bind_run, compare_hashes_same by done.
    by rewrite (assoc (++)).
  - cbn [source_hash replica_hash]. rewrite Hsame. apply diff_self_empty.
Qed.



(** ** Witnesses on the example filesystems *)

Lemma process_directory_manifest_witness :
  all_readable example_fs ["source"%string] = true
  ∧ ∃ hash_dict,
      process_directory ["source"%string] (World example_fs [])
        = (Ok hash_dict, World example_fs [])
      ∧ hash_dict !! [] = None
      ∧ ∀ k, k ≠ [] →
          hash_dict !! k =
            match entry_at example_fs (["source"%string] ++ k) with
            | Some (FileE c _) => Some (Some (hexdigest (update hash_function c)))
            | Some DirE => Some None
            | None => None
            end.
Proof.
  split; [vm_compute; reflexivity|].
  apply (process_directory_manifest (World example_fs []) ["source"%string]).
  vm_compute. reflexivity.
Defined.

Lemma process_directory_unreadable_file_witness :
  ∃ hash_dict lg,
    process_directory ["source"%string] (World unreadable_fs [])
      = (Ok hash_dict, World unreadable_fs ([] ++ lg))
    ∧ hash_dict !! ["secret"%string] = None
    ∧ scan_error (["source"%string] ++ ["secret"%string]) PermissionError ∈ lg
    ∧ ∀ k', k' ≠ [] → k' ≠ ["secret"%string] →
        hash_dict !! k' = view (entry_at unreadable_fs (["source"%string] ++ k')).
Proof.
  apply (process_directory_unreadable_file (World unreadable_fs [])
           ["source"%string] ["secret"%string] (bytes_of_string "hello")).
  - discriminate.
  - vm_compute. reflexivity.
Defined.


(** ** Runs on the example filesystems *)

(** The pass on [example_fs]: one summary line per category, and the
    replica ends with the files of the source. *)
Example sync_folders_example_log :
  log (sync_folders elements example_self (World example_fs [])).2
    = [INFO "Added files: a.txt; d/f; d;";
       INFO "Removed files: old/f.txt; old;";
       INFO "Modified files: m;"].
Proof. vm_compute. reflexivity. Qed.

Example sync_folders_example_replica :
  let d' := fs (sync_folders elements example_self (World example_fs [])).2 in
  entry_at d' ["replica"; "a.txt"]%string = Some (FileE (bytes_of_string "hello") true)
  ∧ entry_at d' ["replica"; "d"; "f"]%string = Some (FileE [] true)
  ∧ entry_at d' ["replica"; "m"]%string = Some (FileE (bytes_of_string "new") true)
  ∧ entry_at d' ["replica"; "old"]%string = None.
Proof. vm_compute. done. Qed.

(** The hypotheses of convergence are needed.  A directory of the source
    that is a file in the replica makes the pass raise: the key is in the
    modified set and [shutil.copy2] cannot read a directory. *)
Example sync_folders_kind_flip_back_raises :
  (sync_folders elements example_self (World kind_flip_back_fs [])).1
    = Raise IsADirectoryError.
Proof. vm_compute. reflexivity. Qed.

(** With the replica folder inside the source folder, the pass changes the
    source itself, and the two fresh scans differ. *)
Example sync_folders_nested_diverges :
  let w' := (sync_folders elements nested_self (World nested_fs [])).2 in
  ∃ source_manifest replica_manifest,
    (process_directory ["top"%string] w').1 = Ok source_manifest
    ∧ (process_directory ["top"%string; "rep"%string] w').1 = Ok replica_manifest
    ∧ source_manifest !! ["rep"; "a.txt"]%string
        = Some (Some "5d41402abc4b2a76b9719d911017c592"%string)
    ∧ replica_manifest !! ["rep"; "a.txt"]%string = None.
Proof.
  intros w'. eexists _, _. split_and!.
  - rewrite process_directory_run. reflexivity.
  - rewrite process_directory_run. reflexivity.
  - vm_compute. reflexivity.
  - vm_compute. reflexivity.
Qed.

(** A regular file above the replica folder makes the pass raise. *)
Example sync_folders_blocked_raises :
  (sync_folders elements blocked_self (World blocked_fs [])).1
    = Raise NotADirectoryError.
Proof. vm_compute. reflexivity. Qed.


(** * Further properties of the code *)

(** ** The diff *)

(** X1: the diff misses no difference.  The three sets are all empty exactly
    when the two manifests are equal. *)
Theorem diff_empty_iff_equal (sh rh : gmap path (option string)) :
  added_files sh rh = ∅ ∧ removed_files sh rh = ∅ ∧ modified_files sh rh = ∅
  ↔ sh = rh.
Proof.
  split; [|intros ->; apply diff_self_empty].
  intros (Hadd & Hrem & Hmod). apply map_eq. intros k.
  destruct (sh !! k) as [v1|] eqn:H1, (rh !! k) as [v2|] eqn:H2; [| | |done].
  - destruct (decide (v1 = v2)) as [->|Hne]; [done|]. exfalso.
    apply (not_elem_of_empty (C := gset path) k). rewrite <- Hmod.
    apply elem_of_modified_files. by exists v1, v2.
  - exfalso. apply (not_elem_of_empty (C := gset path) k). rewrite <- Hadd.
    apply elem_of_added_files. by rewrite H1.
  - exfalso. apply (not_elem_of_empty (C := gset path) k). rewrite <- Hrem.
    apply elem_of_removed_files. by rewrite H2.
Qed.

(** X2: exchanging the two manifests exchanges the added and the removed
    set and keeps the modified set; and every key of either manifest is in
    one of the three sets or has the same value in both. *)
Theorem diff_swap_and_cover (sh rh : gmap path (option string)) :
  added_files sh rh = removed_files rh sh
  ∧ modified_files sh rh = modified_files rh sh
  ∧ ∀ file, file ∈ dom sh ∪ dom rh →
      file ∈ added_files sh rh ∨ file ∈ removed_files sh rh
      ∨ file ∈ modified_files sh rh
      ∨ (is_Some (sh !! file) ∧ sh !! file = rh !! file).
Proof.
  split_and!.
  - done.
  - apply set_eq. intros file. rewrite !elem_of_modified_files. naive_solver.
  - intros file. rewrite elem_of_union, !elem_of_dom.
    rewrite elem_of_added_files, elem_of_removed_files, elem_of_modified_files.
    destruct (sh !! file) as [v1|] eqn:H1, (rh !! file) as [v2|] eqn:H2.
    + intros _. destruct (decide (v1 = v2)) as [->|Hne]; [naive_solver|].
      right. right. left. by exists v1, v2.
    + intros _. left. split; [by eexists|done].
    + intros _. right. left. split; [by eexists|done].
    + intros [[? [=]]|[? [=]]].
Qed.

(** ** The manifest of a scan *)

(** X3: the keys of a manifest are closed under parents.  Whenever a key
    with more than one component is in the manifest, the key of its parent
    is in the manifest too, with the directory marker. *)
Theorem process_directory_parents `{HashFunction} (w : world) (source_path : path) :
  ∃ hash_dict lg,
    process_directory source_path w = (Ok hash_dict, World (fs w) (log w ++ lg))
    ∧ ∀ k n, k ≠ [] → is_Some (hash_dict !! (k ++ [n])) → hash_dict !! k = Some None.
Proof.
  exists (scan (fs w) source_path), (scan_errors (fs w) source_path).
  split; [apply process_directory_run|].
  intros k n Hk [v Hv]. apply scan_lookup_Some in Hv as [_ Hv].
  apply view_Some_entry in Hv. rewrite scan_lookup, decide_False by done.
  rewrite (assoc (++)) in Hv. by rewrite (entry_at_prefix _ _ [n] Hv).
Qed.

(** X4: the manifest depends only on what lies below the root.  Two worlds
    that agree on every path below the root give the same manifest,
    whatever they have elsewhere and whatever was logged before. *)
Theorem process_directory_local `{HashFunction} (w1 w2 : world) (source_path : path) :
  (∀ k, k ≠ [] →
     entry_at (fs w1) (source_path ++ k) = entry_at (fs w2) (source_path ++ k)) →
  (process_directory source_path w1).1 = (process_directory source_path w2).1.
Proof.
  intros Hsame. rewrite !process_directory_run. cbn [fst]. f_equal.
  apply map_eq. intros k. rewrite !scan_lookup. case_decide; [done|].
  by rewrite Hsame.
Qed.

Lemma process_directory_local_witness :
  (process_directory ["source"%string] (World example_fs [])).1
    = (process_directory ["source"%string] (World example_fs_elsewhere [INFO "x"])).1.
Proof.
  apply (process_directory_local (World example_fs [])
           (World example_fs_elsewhere [INFO "x"]) ["source"%string]).
  intros k _. cbn [fs app]. unfold example_fs_elsewhere.
  rewrite !(entry_at_cons _ "source").
  by rewrite !lookup_insert_ne by done.
Defined.


(** X6: the manifest is empty exactly when there is no directory and no
    readable file below the root: the root is missing, is a regular file,
    is an empty directory, or holds only files that cannot be read. *)
Theorem process_directory_empty `{HashFunction} (w : world) (source_path : path) :
  ∃ hash_dict lg,
    process_directory source_path w = (Ok hash_dict, World (fs w) (log w ++ lg))
    ∧ (hash_dict = ∅ ↔
         ∀ k, k ≠ [] →
           entry_at (fs w) (source_path ++ k) = None
           ∨ ∃ c, entry_at (fs w) (source_path ++ k) = Some (FileE c false)).
Proof.
  exists (scan (fs w) source_path), (scan_errors (fs w) source_path).
  split; [apply process_directory_run|]. split.
  - intros Hempty k Hk.
    assert (scan (fs w) source_path !! k = None) as Hlook by by rewrite Hempty.
    rewrite scan_lookup, decide_False in Hlook by done.
    destruct (entry_at (fs w) (source_path ++ k)) as [[|c [|]]|]; eauto; done.
  - intros Hnone. apply map_eq. intros k. rewrite lookup_empty, scan_lookup.
    case_decide as Hk; [done|].
    destruct (Hnone k Hk) as [->|[c ->]]; done.
Qed.

(** ** Hashing with other chunk sizes *)



(** ** What the steps of a pass may change *)

Lemma makedirs_Ok_free (d : gmap string node) (p : path) d' :
  makedirs d p = Ok d' → ∀ x c r, x `prefix_of` p → entry_at d x ≠ Some (FileE c r).
Proof.
  revert d d'. induction p as [|n p IH]; intros d d' Hmk x c r Hx.
  { by apply prefix_nil_inv in Hx as ->. }
  destruct x as [|m x]; [done|].
  pose proof (prefix_cons_inv_1 _ _ _ _ Hx) as ->.
  apply prefix_cons_inv_2 in Hx. rewrite entry_at_cons.
  simpl in Hmk. destruct (d !! n) as [[c0 r0|d0]|]; [done| |done].
  destruct (makedirs d0 p) as [d1|] eqn:Hsub; [|done].
  by eapply IH.
Qed.

Lemma makedirs_Ok_spec (d : gmap string node) (p : path) d' :
  makedirs d p = Ok d' →
  ∀ q, entry_at d' q = if decide (q `prefix_of` p) then Some DirE else entry_at d q.
Proof.
  intros Hmk. destruct (makedirs_spec d p) as (d'' & Hmk' & Hspec).
  { by eapply makedirs_Ok_free. }
  rewrite Hmk in Hmk'. by injection Hmk' as ->.
Qed.

Lemma write_file_cons2 (d : gmap string node) n n' (p : path) c r :
  write_file d (n :: n' :: p) c r =
    match d !! n with
    | None => Raise FileNotFoundError
    | Some (File _ _) => Raise NotADirectoryError
    | Some (Dir d') => d'' ← write_file d' (n' :: p) c r; Ok (<[n := Dir d'']> d)
    end.
Proof. done. Qed.

Lemma write_file_Ok_pre (d : gmap string node) (p : path) c r d' :
  write_file d p c r = Ok d' →
  p ≠ [] ∧ entry_at d (removelast p) = Some DirE ∧ entry_at d p ≠ Some DirE.
Proof.
  revert d d'. induction p as [|n p IH]; intros d d' Hw; [done|].
  split; [done|]. destruct p as [|n' p].
  - split; [done|]. rewrite entry_at_cons. simpl in Hw.
    by destruct (d !! n) as [[]|].
  - change (removelast (n :: n' :: p)) with (n :: removelast (n' :: p)).
    rewrite !entry_at_cons. rewrite write_file_cons2 in Hw.
    destruct (d !! n) as [[c0 r0|d0]|]; [done| |done].
    destruct (write_file d0 (n' :: p) c r) as [d1|] eqn:Hsub; [|done].
    by destruct (IH d0 d1) as (_ & Hparent & Hnodir).
Qed.

Lemma write_file_Ok_spec (d : gmap string node) (p : path) c r d' :
  write_file d p c r = Ok d' →
  ∀ q, entry_at d' q = if decide (q = p) then Some (FileE c r) else entry_at d q.
Proof.
  intros Hw. destruct (write_file_Ok_pre d p c r d' Hw) as (Hp & Hparent & Hnodir).
  destruct (write_file_spec d p c r Hp Hparent Hnodir) as (d'' & Hw' & Hspec).
  rewrite Hw in Hw'. by injection Hw' as ->.
Qed.

Lemma changes_within_refl (R : path) d : changes_within R d d.
Proof. intros x _. by left. Qed.

Lemma changes_within_trans (R : path) d1 d2 d3 :
  changes_within R d1 d2 → changes_within R d2 d3 → changes_within R d1 d3.
Proof.
  intros H12 H23 x Hx.
  destruct (H23 x Hx) as [Heq|(Hpre & Hnone & Hdir)].
  - rewrite Heq. by apply H12.
  - destruct (H12 x Hx) as [Heq|(_ & _ & Hdir')]; [|congruence].
    right. split_and!; [done| |done]. by rewrite <- Heq.
Qed.

Lemma changes_within_makedirs (R p : path) d d' :
  (∀ x, x `prefix_of` p → x `prefix_of` R ∨ R `prefix_of` x) →
  makedirs d p = Ok d' → changes_within R d d'.
Proof.
  intros Hp Hmk x Hx. rewrite (makedirs_Ok_spec _ _ _ Hmk).
  case_decide as Hpre; [|by left].
  destruct (Hp x Hpre); [|done].
  pose proof (makedirs_Ok_free _ _ _ Hmk x) as Hfree.
  destruct (entry_at d x) as [[|c r]|] eqn:Hbefore.
  - by left.
  - by destruct (Hfree c r Hpre).
  - by right.
Qed.

Lemma prefix_app_total (x R y : path) :
  x `prefix_of` R ++ y → x `prefix_of` R ∨ R `prefix_of` x.
Proof.
  intros [?|(q & -> & _)]%prefix_app_cases; [by left|].
  right. by apply prefix_app_r.
Qed.

Lemma changes_within_write_file (R y : path) c r d d' :
  write_file d (R ++ y) c r = Ok d' → changes_within R d d'.
Proof.
  intros Hw x Hx. rewrite (write_file_Ok_spec _ _ _ _ _ Hw).
  case_decide as Heq; [|by left].
  exfalso. apply Hx. rewrite Heq. by apply prefix_app_r.
Qed.

Lemma changes_within_unlink (R y : path) d :
  changes_within R d (unlink d (R ++ y)).
Proof.
  intros x Hx. destruct (decide (R ++ y = [])) as [Hnil|Hne].
  { exfalso. apply Hx. apply app_eq_nil in Hnil as [-> _]. apply prefix_nil. }
  rewrite unlink_spec by done. case_decide as Hpre; [|by left].
  exfalso. apply Hx. etrans; [|done]. by apply prefix_app_r.
Qed.

Lemma quiet_within_refl (R : path) w : quiet_within R w w.
Proof. split; [done|apply changes_within_refl]. Qed.

Lemma quiet_within_trans (R : path) w1 w2 w3 :
  quiet_within R w1 w2 → quiet_within R w2 w3 → quiet_within R w1 w3.
Proof.
  intros [Hl12 Hf12] [Hl23 Hf23]. split; [congruence|].
  by eapply changes_within_trans.
Qed.

Lemma preserves_bind {A B} (P : world → world → Prop) (m : M A) (k : A → M B) :
  (∀ w, P w w) → (∀ w1 w2 w3, P w1 w2 → P w2 w3 → P w1 w3) →
  preserves P m → (∀ a, preserves P (k a)) → preserves P (m ≫= k).
Proof.
  intros Hrefl Htrans Hm Hk w r w'. rewrite M_bind_run.
  destruct (m w) as [[a|e] w1] eqn:Hrun.
  - intros Hkrun. eapply Htrans; [by eapply Hm|by eapply Hk].
  - intros [= <- <-]. by eapply Hm.
Qed.

Lemma preserves_ret {A} (P : world → world → Prop) (a : A) :
  (∀ w, P w w) → preserves P (mret a).
Proof. intros Hrefl w r w' [= <- <-]. apply Hrefl. Qed.

Lemma preserves_for_each {A} (P : world → world → Prop) (l : list A)
    (body : A → M unit) :
  (∀ w, P w w) → (∀ w1 w2 w3, P w1 w2 → P w2 w3 → P w1 w3) →
  (∀ x, x ∈ l → preserves P (body x)) → preserves P (for_each l body).
Proof.
  intros Hrefl Htrans. induction l as [|x l IH]; intros Hbody.
  { by apply preserves_ret. }
  cbn [for_each]. apply preserves_bind; [done..| |].
  - apply Hbody. by left.
  - intros _. apply IH. intros y Hy. apply Hbody. by right.
Qed.

Lemma preserves_os_makedirs (R p : path) :
  (∀ x, x `prefix_of` p → x `prefix_of` R ∨ R `prefix_of` x) →
  preserves (quiet_within R) (os_makedirs p).
Proof.
  intros Hp [d lg] r w'. rewrite os_makedirs_run.
  destruct (makedirs d p) as [d'|e] eqn:Hmk; intros [= <- <-].
  - split; [done|]. by eapply changes_within_makedirs.
  - apply quiet_within_refl.
Qed.

Lemma shutil_copy2_inv (src dst : path) d lg r w' :
  shutil_copy2 src dst (World d lg) = (r, w') →
  (∃ e, r = Raise e ∧ w' = World d lg)
  ∨ (∃ c d', r = Ok () ∧ w' = World d' lg
             ∧ entry_at d src = Some (FileE c true)
             ∧ src ≠ (if isdir d dst then join dst [basename src] else dst)
             ∧ write_file d (if isdir d dst then join dst [basename src] else dst)
                 c true = Ok d').
Proof.
  unfold shutil_copy2. rewrite M_bind_run. cbn [get_fs fs].
  set (dst' := if isdir d dst then join dst [basename src] else dst).
  destruct (bool_decide (src = dst') && exists_ d src) eqn:Hsame.
  { intros [= <- <-]. left. eauto. }
  rewrite M_bind_run, open_rb_run.
  destruct (entry_at d src) as [[|c [|]]|] eqn:Hsrc;
    try (intros [= <- <-]; left; eauto).
  rewrite M_bind_run. unfold lift.
  destruct (write_file d dst' c true) as [d'|e] eqn:Hw.
  - intros [= <- <-]. right. exists c, d'. split_and!; [done..| |done].
    intros Heq. unfold exists_ in Hsame. rewrite Hsrc in Hsame.
    by rewrite bool_decide_true in Hsame.
  - intros [= <- <-]. left. eauto.
Qed.

Lemma preserves_shutil_copy2 (R y src : path) :
  preserves (quiet_within R) (shutil_copy2 src (R ++ y)).
Proof.
  intros [d lg] r w' Hrun.
  apply shutil_copy2_inv in Hrun as [(e & -> & ->)|(c & d' & -> & -> & _ & _ & Hw)].
  { apply quiet_within_refl. }
  split; [done|]. cbn [fs]. unfold join in Hw.
  destruct (isdir d (R ++ y)).
  - rewrite <- (assoc (++)) in Hw. by eapply changes_within_write_file.
  - by eapply changes_within_write_file.
Qed.

Lemma removelast_app_total (R file x : path) :
  x `prefix_of` removelast (R ++ file) → x `prefix_of` R ∨ R `prefix_of` x.
Proof.
  intros Hx. apply (prefix_app_total x R file).
  destruct (decide (R ++ file = [])) as [Hnil|Hne].
  { by rewrite Hnil in Hx |- *. }
  etrans; [done|]. by apply removelast_prefix.
Qed.

Lemma preserves_add_file (self : FolderSynchronizer) (file : path) :
  preserves (quiet_within (replica_folder self)) (add_file self file).
Proof.
  unfold add_file, join, copy_file.
  apply preserves_bind;
    [apply quiet_within_refl|apply quiet_within_trans| |].
  { intros [d lg] r w' [= <- <-]. apply quiet_within_refl. }
  intros [|].
  - apply preserves_os_makedirs. intros x. apply prefix_app_total.
  - apply preserves_bind;
      [apply quiet_within_refl|apply quiet_within_trans| |].
    + apply preserves_os_makedirs. intros x. apply removelast_app_total.
    + intros _. apply preserves_shutil_copy2.
Qed.

Lemma preserves_modify_file (self : FolderSynchronizer) (file : path) :
  preserves (quiet_within (replica_folder self)) (modify_file self file).
Proof. unfold modify_file, join, copy_file. apply preserves_shutil_copy2. Qed.

Lemma preserves_remove_file (self : FolderSynchronizer) (file : path) :
  preserves (quiet_within (replica_folder self)) (remove_file self file).
Proof.
  intros [d lg] r w'. rewrite remove_file_run. cbn [fs log]. intros [= <- <-].
  split; [done|]. cbn [fs].
  destruct (entry_at d (replica_folder self ++ file));
    [apply changes_within_unlink|apply changes_within_refl].
Qed.

Lemma preserves_weaken {A} (P Q : world → world → Prop) (m : M A) :
  (∀ w w', P w w' → Q w w') → preserves P m → preserves Q m.
Proof. intros HPQ Hm w r w' Hrun. by eapply HPQ, Hm. Qed.

Lemma apply_category_log (set_iter : gset path → list path) (R : path)
    (header : string) (files : gset path) (body : path → M unit) w r w' :
  (∀ k, preserves (quiet_within R) (body k)) →
  apply_category set_iter header files body w = (r, w') →
  changes_within R (fs w) (fs w')
  ∧ match r with
    | Ok _ => log w' = log w ++ category_log set_iter header files
    | Raise _ => log w' = log w
    end.
Proof.
  intros Hbody. unfold apply_category, category_log.
  destruct (decide (files = ∅)) as [_|_].
  { intros [= <- <-]. rewrite app_nil_r. split; [apply changes_within_refl|done]. }
  rewrite M_bind_run.
  destruct (for_each (set_iter files) body w) as [[[]|e] w1] eqn:Hloop.
  - apply (preserves_for_each (quiet_within R)) in Hloop as [Hlog Hfs];
      [|apply quiet_within_refl|apply quiet_within_trans|by intros].
    intros [= <- <-]. cbn [fs log]. by rewrite Hlog.
  - apply (preserves_for_each (quiet_within R)) in Hloop as [Hlog Hfs];
      [|apply quiet_within_refl|apply quiet_within_trans|by intros].
    by intros [= <- <-].
Qed.

Lemma compare_hashes_outcome (set_iter : gset path → list path)
    (self : FolderSynchronizer) (w : world) :
  let sh := source_hash self in
  let rh := replica_hash self in
  let A := category_log set_iter "Added files:" (added_files sh rh) in
  let R := category_log set_iter "Removed files:" (removed_files sh rh) in
  let M := category_log set_iter "Modified files:" (modified_files sh rh) in
  let '(r, w') := compare_hashes set_iter self w in
  changes_within (replica_folder self) (fs w) (fs w')
  ∧ match r with
    | Ok _ => log w' = log w ++ A ++ R ++ M
    | Raise _ =>
        log w' = log w ∨ log w' = log w ++ A ∨ log w' = log w ++ A ++ R
    end.
Proof.
  intros sh rh A R M. unfold compare_hashes. fold sh rh.
  rewrite M_bind_run.
  destruct (apply_category set_iter "Added files:" _ _ w) as [[[]|e] w1] eqn:H1;
    apply (apply_category_log _ (replica_folder self)) in H1 as [Hf1 Hl1];
    try apply preserves_add_file; [|by split; [|left]].
  rewrite M_bind_run.
  destruct (apply_category set_iter "Removed files:" _ _ w1) as [[[]|e] w2] eqn:H2;
    apply (apply_category_log _ (replica_folder self)) in H2 as [Hf2 Hl2];
    try apply preserves_remove_file.
  2:{ split; [by apply (changes_within_trans _ _ (fs w1))|].
      right. left. by rewrite Hl2. }
  assert (changes_within (replica_folder self) (fs w) (fs w2)) as Hf12.
  { by apply (changes_within_trans _ _ (fs w1)). }
  destruct (apply_category set_iter "Modified files:" _ _ w2) as [[[]|e] w3] eqn:H3;
    apply (apply_category_log _ (replica_folder self)) in H3 as [Hf3 Hl3];
    try apply preserves_modify_file.
  - split; [by apply (changes_within_trans _ _ (fs w2))|].
    rewrite Hl3, Hl2, Hl1. by rewrite <- !(assoc (++)).
  - split; [by apply (changes_within_trans _ _ (fs w2))|].
    right. right. rewrite Hl3, Hl2, Hl1. by rewrite <- !(assoc (++)).
Qed.

(** X8: the log of [compare_hashes].  When it returns, it has appended one
    summary record for every category that is not empty, in the order
    added, removed, modified, and nothing else.  When it raises, the
    summary of the category that failed and of the later ones are missing:
    only the summaries of the categories completed before are logged. *)
Theorem compare_hashes_log (set_iter : gset path → list path)
    (self : FolderSynchronizer) (w : world) :
  let sh := source_hash self in
  let rh := replica_hash self in
  let A := category_log set_iter "Added files:" (added_files sh rh) in
  let R := category_log set_iter "Removed files:" (removed_files sh rh) in
  let M := category_log set_iter "Modified files:" (modified_files sh rh) in
  match compare_hashes set_iter self w with
  | (Ok _, w') => log w' = log w ++ A ++ R ++ M
  | (Raise _, w') =>
      log w' = log w ∨ log w' = log w ++ A ∨ log w' = log w ++ A ++ R
  end.
Proof.
  intros sh rh A R M.
  pose proof (compare_hashes_outcome set_iter self w) as Hout. cbv zeta in Hout.
  destruct (compare_hashes set_iter self w) as [[[]|e] w']; apply Hout.
Qed.

Lemma sync_folders_changes_within `{HashFunction} (set_iter : gset path → list path)
    (self : FolderSynchronizer) (w : world) :
  changes_within (replica_folder self) (fs w) (fs (sync_folders set_iter self w).2).
Proof.
  unfold sync_folders. rewrite M_bind_run, process_directory_run.
  rewrite M_bind_run, process_directory_run.
  cbn [fs log source_hash replica_hash source_folder replica_folder].
  rewrite M_bind_run.
  match goal with |- context [compare_hashes set_iter ?s ?w0] =>
    pose proof (compare_hashes_outcome set_iter s w0) as Hout;
    destruct (compare_hashes set_iter s w0) as [[[]|e] w'] end;
    cbv zeta in Hout; cbn [fs snd replica_folder] in *; apply Hout.
Qed.

(** X9: what a pass may change.  Whether it returns or raises, and whatever
    the two folders contain, a pass leaves every path that is not the
    replica folder or below it as it was, except that a missing ancestor of
    the replica folder may have been created as a directory.  In
    particular, when neither folder lies inside the other, nothing under
    the source folder is ever changed. *)
Theorem sync_folders_frame `{HashFunction} (set_iter : gset path → list path)
    (self : FolderSynchronizer) (w : world) :
  let d' := fs (sync_folders set_iter self w).2 in
  (∀ x, ¬ replica_folder self `prefix_of` x →
     entry_at d' x = entry_at (fs w) x
     ∨ (x `prefix_of` replica_folder self
        ∧ entry_at (fs w) x = None ∧ entry_at d' x = Some DirE))
  ∧ (separate (source_folder self) (replica_folder self) →
     ∀ q, entry_at d' (source_folder self ++ q)
          = entry_at (fs w) (source_folder self ++ q)).
Proof.
  intros d'. pose proof (sync_folders_changes_within set_iter self w) as Hframe.
  fold d' in Hframe. split; [exact Hframe|].
  intros [HSR HRS] q.
  destruct (Hframe (source_folder self ++ q)) as [?|(Hpre & _)]; [|done|].
  - intros Hpre.
    destruct (prefix_weak_total (replica_folder self) (source_folder self)
                (source_folder self ++ q)); [done|by apply prefix_app_r|done..].
  - exfalso. apply HSR. etrans; [|done]. by apply prefix_app_r.
Qed.

(** ** Removals *)

Lemma entry_at_below_None (d : gmap string node) (p x : path) :
  entry_at d p = None → p `prefix_of` x → entry_at d x = None.
Proof.
  intros Hp [q ->]. destruct (entry_at d (p ++ q)) as [e|] eqn:Hq; [|done].
  destruct q as [|n q]; [by rewrite app_nil_r, Hp in Hq|].
  apply mk_is_Some, entry_at_prefix in Hq; [congruence|done].
Qed.

(** The three cases of a removal have one description: whatever is at the
    path or below it is gone, everything else stays. *)
Lemma remove_file_entries (self : FolderSynchronizer) (file : path) (w : world) x :
  replica_folder self ++ file ≠ [] →
  entry_at (fs (remove_file self file w).2) x =
    if decide (replica_folder self ++ file `prefix_of` x) then None
    else entry_at (fs w) x.
Proof.
  intros Hp. rewrite remove_file_run. cbn [snd fs].
  destruct (entry_at (fs w) (replica_folder self ++ file)) as [e|] eqn:Hentry.
  - by apply unlink_spec.
  - case_decide as Hpre; [|done]. by eapply entry_at_below_None.
Qed.

(** X10: the order of removals does not matter.  Removing two paths of the
    replica in either order leaves the same filesystem, path by path, and
    raises in neither order; and once a path has been removed, removing a
    path below it changes nothing at all. *)
Theorem remove_file_commute (self : FolderSynchronizer) (a b : path) (w : world) :
  a ≠ [] → b ≠ [] →
  (remove_file self b (remove_file self a w).2).1 = Ok ()
  ∧ (∀ x, entry_at (fs (remove_file self b (remove_file self a w).2).2) x
          = entry_at (fs (remove_file self a (remove_file self b w).2).2) x)
  ∧ (a `prefix_of` b →
     remove_file self b (remove_file self a w).2 = (Ok (), (remove_file self a w).2)).
Proof.
  intros Ha Hb.
  assert (replica_folder self ++ a ≠ []) as Hpa by (intros [_ ?]%app_eq_nil; done).
  assert (replica_folder self ++ b ≠ []) as Hpb by (intros [_ ?]%app_eq_nil; done).
  split_and!.
  - by rewrite remove_file_run.
  - intros x. rewrite !remove_file_entries by done.
    by repeat case_decide.
  - intros Hab. rewrite (remove_file_run self b). f_equal.
    assert (entry_at (fs (remove_file self a w).2) (replica_folder self ++ b) = None)
      as ->.
    { rewrite remove_file_entries, decide_True; [done| |done]. by apply prefix_app. }
    by destruct (remove_file self a w).2.
Qed.

Lemma remove_file_commute_witness :
  let w := World example_fs [] in
  remove_file example_self ["old"; "f.txt"]%string
      (remove_file example_self ["old"%string] w).2
    = (Ok (), (remove_file example_self ["old"%string] w).2).
Proof.
  intros w.
  destruct (remove_file_commute example_self ["old"%string] ["old"; "f.txt"]%string w)
    as (_ & _ & Habsorb); [done..|].
  apply Habsorb. by exists ["f.txt"%string].
Defined.

(** ** Copying and adding *)





Lemma creatable_prefix (d : gmap string node) (p q : path) :
  creatable d p → q `prefix_of` p → creatable d q.
Proof. intros Hp Hq x c r Hx. apply Hp. by etrans. Qed.



(** ** The state kept between passes *)

(** X14: the two manifests kept in the object.  A pass overwrites both
    stored manifests before it compares them, so its outcome does not
    depend on what an earlier pass stored: two objects with the same
    folders give the same result and the same world.  The object that a
    pass returns holds the two manifests scanned at the start of that
    pass; its replica manifest describes the replica folder as it was
    before the pass changed it. *)
Theorem sync_folders_stored_hashes `{HashFunction} (set_iter : gset path → list path)
    (self : FolderSynchronizer) (w : world) :
  (∀ other,
     source_folder other = source_folder self →
     replica_folder other = replica_folder self →
     sync_folders set_iter other w = sync_folders set_iter self w)
  ∧ (∀ self' w',
       sync_folders set_iter self w = (Ok self', w') →
       source_folder self' = source_folder self
       ∧ replica_folder self' = replica_folder self
       ∧ source_hash self' = scan (fs w) (source_folder self)
       ∧ replica_hash self' = scan (fs w) (replica_folder self)).
Proof.
  split.
  - intros other Hs Hr. destruct other, self. cbn in Hs, Hr. subst.
    reflexivity.
  - intros self' w'. unfold sync_folders.
    rewrite M_bind_run, process_directory_run.
    rewrite M_bind_run, process_directory_run.
    cbn [fs log source_hash replica_hash source_folder replica_folder].
    rewrite M_bind_run.
    match goal with |- context [compare_hashes set_iter ?s ?w0] =>
      destruct (compare_hashes set_iter s w0) as [[[]|e] w1] end; [|done].
    by intros [= <- <-].
Qed.

(** ** The periodic loop *)

Lemma sync_folders_folders `{HashFunction} (set_iter : gset path → list path)
    (self self' : FolderSynchronizer) (w w' : world) :
  sync_folders set_iter self w = (Ok self', w') →
  source_folder self' = source_folder self
  ∧ replica_folder self' = replica_folder self.
Proof.
  unfold sync_folders.
  rewrite M_bind_run, process_directory_run.
  rewrite M_bind_run, process_directory_run.
  cbn [fs log source_hash replica_hash source_folder replica_folder].
  rewrite M_bind_run.
  match goal with |- context [compare_hashes set_iter ?s ?w0] =>
    destruct (compare_hashes set_iter s w0) as [[[]|e] w1] end; [|done].
  by intros [= <- <-].
Qed.

Lemma sync_loop_S `{HashFunction} (set_iter : gset path → list path)
    (passes : nat) (self : FolderSynchronizer) (sync_interval : Z) (w : world) :
  sync_loop set_iter (S passes) self sync_interval w =
    match sync_folders set_iter self w with
    | (Ok self', w') => sync_loop set_iter passes self' sync_interval w'
    | (Raise e, w') => (Raise e, w')
    end.
Proof.
  cbn [sync_loop]. rewrite M_bind_run.
  by destruct (sync_folders set_iter self w) as [[self'|e] w'].
Qed.

Lemma periodic_sync_run `{HashFunction} (set_iter : gset path → list path)
    (passes : nat) (self : FolderSynchronizer) (sync_interval : Z) (w : world) :
  periodic_sync set_iter passes self sync_interval w =
    sync_loop set_iter passes self sync_interval
      (World (fs w) (log w ++ [INFO "Synchronizer started ..."])).
Proof. unfold periodic_sync. by rewrite M_bind_run. Qed.

(** The loop in a filesystem where the two folders have the same manifest:
    every pass leaves the filesystem as it is and logs the files that it
    could not read. *)
Lemma sync_loop_same `{HashFunction} (set_iter : gset path → list path)
    (passes : nat) (self : FolderSynchronizer) (sync_interval : Z) (w : world) :
  scan (fs w) (source_folder self) = scan (fs w) (replica_folder self) →
  ∃ self',
    sync_loop set_iter passes self sync_interval w
      = (Ok self',
         World (fs w)
           (log w ++ concat (replicate passes
                               (scan_errors (fs w) (source_folder self)
                                ++ scan_errors (fs w) (replica_folder self))))).
Proof.
  revert self w. induction passes as [|passes IH]; intros self w Hsame.
  { exists self. cbn. rewrite app_nil_r. by destruct w. }
  destruct (sync_folders_same set_iter self w) as (self1 & Hrun & _).
  { rewrite !process_directory_run. cbn [fst]. by rewrite Hsame. }
  rewrite sync_loop_S, Hrun.
  destruct (sync_folders_folders _ _ _ _ _ Hrun) as [Hs Hr].
  destruct (IH self1 (World (fs w)
              (log w ++ scan_errors (fs w) (source_folder self)
                     ++ scan_errors (fs w) (replica_folder self)))) as (self' & ->).
  { cbn [fs]. by rewrite Hs, Hr. }
  exists self'. cbn [fs log replicate concat]. rewrite Hs, Hr.
  by rewrite <- !(assoc (++)).
Qed.



Lemma sync_loop_raise `{HashFunction} (set_iter : gset path → list path)
    (passes : nat) (self : FolderSynchronizer) (sync_interval : Z)
    (w : world) e w' :
  sync_loop set_iter passes self sync_interval w = (Raise e, w') →
  (∃ done_ self_k w_k,
     done_ < passes
     ∧ sync_loop set_iter done_ self sync_interval w = (Ok self_k, w_k)
     ∧ sync_folders set_iter self_k w_k = (Raise e, w'))
  ∧ ∀ more, passes ≤ more →
      sync_loop set_iter more self sync_interval w = (Raise e, w').
Proof.
  revert self w. induction passes as [|passes IH]; intros self w; [done|].
  rewrite sync_loop_S.
  destruct (sync_folders set_iter self w) as [[self1|e1] w1] eqn:Hpass.
  - intros Hrest. destruct (IH _ _ Hrest) as [(k & self_k & w_k & Hk & Hok & Hfail) Hmore].
    split.
    + exists (S k), self_k, w_k. split_and!; [lia| |done].
      by rewrite sync_loop_S, Hpass.
    + intros [|more] Hle; [lia|]. rewrite sync_loop_S, Hpass. apply Hmore. lia.
  - intros [= -> ->]. split.
    + exists 0, self, w. split_and!; [lia|done|done].
    + intros [|more] Hle; [lia|]. by rewrite sync_loop_S, Hpass.
Qed.



(** ** A path that is a directory on one side and a file on the other *)

Lemma changes_within_source (S R : path) d d' q :
  separate S R → changes_within R d d' → entry_at d' (S ++ q) = entry_at d (S ++ q).
Proof.
  intros [HSR HRS] Hframe.
  destruct (Hframe (S ++ q)) as [?|(Hpre & _)]; [|done|].
  - intros Hpre.
    destruct (prefix_weak_total R S (S ++ q)); [done|by apply prefix_app_r|done..].
  - exfalso. apply HSR. etrans; [|done]. by apply prefix_app_r.
Qed.

(** A loop raises when one of its elements makes the body raise in every
    world that the loop can reach. *)
Lemma for_each_raises {A} (P : world → Prop) (l : list A) (body : A → M unit) x :
  x ∈ l →
  (∀ y w r w', P w → body y w = (r, w') → P w') →
  (∀ w, P w → ∃ e w', body x w = (Raise e, w')) →
  ∀ w, P w → ∃ e w', for_each l body w = (Raise e, w').
Proof.
  intros Hx Hkeep Hfail. induction l as [|y l IH]; intros w HP.
  { by apply elem_of_nil in Hx. }
  cbn [for_each]. rewrite M_bind_run.
  apply elem_of_cons in Hx as [<-|Hx].
  - destruct (Hfail w HP) as (e & w' & ->). eauto.
  - destruct (body y w) as [[[]|e] w1] eqn:Hbody; [|eauto].
    apply IH; [done|]. by eapply Hkeep.
Qed.

Lemma modify_file_directory_raises (self : FolderSynchronizer) (file : path) (w : world) :
  entry_at (fs w) (source_folder self ++ file) = Some DirE →
  ∃ e w', modify_file self file w = (Raise e, w').
Proof.
  intros Hdir. destruct w as [d lg].
  destruct (modify_file self file (World d lg)) as [r w'] eqn:Hrun.
  unfold modify_file, copy_file, join in Hrun.
  apply shutil_copy2_inv in Hrun as [(e & -> & ->)|(c & d' & _ & _ & Hsrc & _)].
  - eauto.
  - cbn [fs] in Hdir. congruence.
Qed.

Lemma compare_hashes_directory_raises (set_iter : gset path → list path)
    (self : FolderSynchronizer) (w : world) k :
  (∀ X, set_iter X ≡ₚ elements X) →
  separate (source_folder self) (replica_folder self) →
  k ∈ modified_files (source_hash self) (replica_hash self) →
  entry_at (fs w) (source_folder self ++ k) = Some DirE →
  ∃ e w', compare_hashes set_iter self w = (Raise e, w').
Proof.
  intros Hperm Hseparate Hk Hdir. unfold compare_hashes. rewrite M_bind_run.
  destruct (apply_category set_iter "Added files:" _ _ w) as [[[]|e] w1] eqn:H1;
    [|eauto].
  apply (apply_category_log _ (replica_folder self)) in H1 as [Hf1 _];
    [|apply preserves_add_file].
  rewrite M_bind_run.
  destruct (apply_category set_iter "Removed files:" _ _ w1) as [[[]|e] w2] eqn:H2;
    [|eauto].
  apply (apply_category_log _ (replica_folder self)) in H2 as [Hf2 _];
    [|apply preserves_remove_file].
  unfold apply_category. rewrite decide_False by set_solver.
  rewrite M_bind_run.
  destruct (for_each_raises
              (λ w, entry_at (fs w) (source_folder self ++ k) = Some DirE)
              (set_iter (modified_files (source_hash self) (replica_hash self)))
              (modify_file self) k) with (w := w2) as (e & w' & ->); [| | | |eauto].
  - by rewrite Hperm, elem_of_elements.
  - intros y [d lg] r w' HP Hrun. apply preserves_modify_file in Hrun as [_ Hch].
    by rewrite (changes_within_source _ _ _ _ _ Hseparate Hch).
  - intros w0. apply modify_file_directory_raises.
  - rewrite (changes_within_source _ _ _ _ _ Hseparate Hf2).
    by rewrite (changes_within_source _ _ _ _ _ Hseparate Hf1).
Qed.

(** X17: a directory in the source over a file in the replica.  For
    separate folders, when a relative path is a directory under the source
    folder and a file that can be read under the replica folder, the pass
    raises: the path is in both manifests with different values, so it is
    in the modified set, and copying a directory as a file fails, unless
    an earlier step of the pass has failed already. *)
Theorem sync_folders_directory_over_file_raises `{HashFunction}
    (set_iter : gset path → list path) (self : FolderSynchronizer) (w : world)
    (k : path) c :
  (∀ X, set_iter X ≡ₚ elements X) →
  separate (source_folder self) (replica_folder self) →
  k ≠ [] →
  entry_at (fs w) (source_folder self ++ k) = Some DirE →
  entry_at (fs w) (replica_folder self ++ k) = Some (FileE c true) →
  k ∈ modified_files (scan (fs w) (source_folder self))
                     (scan (fs w) (replica_folder self))
  ∧ ∃ e w', sync_folders set_iter self w = (Raise e, w').
Proof.
  intros Hperm Hseparate Hk Hdir Hfile.
  assert (k ∈ modified_files (scan (fs w) (source_folder self))
                             (scan (fs w) (replica_folder self))) as Hmod.
  { apply elem_of_modified_files. eexists _, _.
    rewrite !scan_lookup, !decide_False by done. rewrite Hdir, Hfile.
    split_and!; [done..|]. cbn. done. }
  split; [done|].
  unfold sync_folders.
  rewrite M_bind_run, process_directory_run.
  rewrite M_bind_run, process_directory_run.
  cbn [fs log source_hash replica_hash source_folder replica_folder].
  rewrite M_bind_run.
  match goal with |- context [compare_hashes set_iter ?s ?w0] =>
    destruct (compare_hashes_directory_raises set_iter s w0 k)
      as (e & w' & ->) end; [done..|eauto].
Qed.

Lemma sync_folders_directory_over_file_raises_witness :
  ["x"%string] ∈ modified_files (scan kind_flip_back_fs ["source"%string])
                                 (scan kind_flip_back_fs ["replica"%string])
  ∧ ∃ e w', sync_folders elements example_self (World kind_flip_back_fs [])
            = (Raise e, w').
Proof.
  apply (sync_folders_directory_over_file_raises elements example_self
           (World kind_flip_back_fs []) ["x"%string] (bytes_of_string "hello")).
  - done.
  - split; intros [q Hq]; discriminate Hq.
  - done.
  - vm_compute. reflexivity.
  - vm_compute. reflexivity.
Defined.

Lemma stays_directory_refl (x : path) w : stays_directory x w w.
Proof. by intros ?. Qed.

Lemma stays_directory_trans (x : path) w1 w2 w3 :
  stays_directory x w1 w2 → stays_directory x w2 w3 → stays_directory x w1 w3.
Proof. intros H12 H23 Hdir. by apply H23, H12. Qed.

Lemma stays_directory_os_makedirs (x p : path) :
  preserves (stays_directory x) (os_makedirs p).
Proof.
  intros [d lg] r w'. rewrite os_makedirs_run.
  destruct (makedirs d p) as [d'|e] eqn:Hmk; intros [= <- <-]; [|by intros ?].
  intros Hdir. cbn [fs] in *. rewrite (makedirs_Ok_spec _ _ _ Hmk).
  by case_decide.
Qed.

Lemma stays_directory_shutil_copy2 (x src dst : path) :
  preserves (stays_directory x) (shutil_copy2 src dst).
Proof.
  intros [d lg] r w' Hrun.
  apply shutil_copy2_inv in Hrun as [(e & -> & ->)|(c & d' & -> & -> & _ & _ & Hw)].
  { by intros ?. }
  intros Hdir. cbn [fs] in *. rewrite (write_file_Ok_spec _ _ _ _ _ Hw).
  case_decide as Heq; [|done]. subst x.
  by destruct (write_file_Ok_pre _ _ _ _ _ Hw) as (_ & _ & Hnot).
Qed.

Lemma stays_directory_add_file (x : path) (self : FolderSynchronizer) (file : path) :
  preserves (stays_directory x) (add_file self file).
Proof.
  unfold add_file, copy_file.
  apply preserves_bind;
    [apply stays_directory_refl|apply stays_directory_trans| |].
  { intros [d lg] r w' [= <- <-]. apply stays_directory_refl. }
  intros [|].
  - apply stays_directory_os_makedirs.
  - apply preserves_bind;
      [apply stays_directory_refl|apply stays_directory_trans| |].
    + apply stays_directory_os_makedirs.
    + intros _. apply stays_directory_shutil_copy2.
Qed.

Lemma stays_directory_modify_file (x : path) (self : FolderSynchronizer) (file : path) :
  preserves (stays_directory x) (modify_file self file).
Proof. unfold modify_file, copy_file. apply stays_directory_shutil_copy2. Qed.

Lemma stays_directory_remove_file (self : FolderSynchronizer) (file k : path) :
  file ≠ [] → ¬ file `prefix_of` k →
  preserves (stays_directory (replica_folder self ++ k)) (remove_file self file).
Proof.
  intros Hfile Hpre w r w' Hrun Hdir.
  assert (w' = (remove_file self file w).2) as -> by (by rewrite Hrun).
  rewrite remove_file_entries.
  - rewrite decide_False; [done|]. intros Hp. apply Hpre.
    by apply prefix_app_inv in Hp.
  - intros Hnil. by apply app_eq_nil in Hnil as [_ ?].
Qed.

Lemma stays_directory_apply_category (set_iter : gset path → list path)
    (x : path) (header : string) (files : gset path) (body : path → M unit) :
  (∀ X, set_iter X ≡ₚ elements X) →
  (∀ file, file ∈ files → preserves (stays_directory x) (body file)) →
  preserves (stays_directory x) (apply_category set_iter header files body).
Proof.
  intros Hperm Hbody. unfold apply_category. case_decide.
  { apply preserves_ret, stays_directory_refl. }
  apply preserves_bind;
    [apply stays_directory_refl|apply stays_directory_trans| |].
  - apply preserves_for_each;
      [apply stays_directory_refl|apply stays_directory_trans|].
    intros file Hin. apply Hbody. by rewrite Hperm, elem_of_elements in Hin.
  - intros _ [d lg] r w' [= <- <-]. by intros ?.
Qed.

Lemma stays_directory_compare_hashes (set_iter : gset path → list path)
    (self : FolderSynchronizer) (k : path) :
  (∀ X, set_iter X ≡ₚ elements X) →
  (∀ file, file ∈ removed_files (source_hash self) (replica_hash self) →
     file ≠ [] ∧ ¬ file `prefix_of` k) →
  preserves (stays_directory (replica_folder self ++ k))
    (compare_hashes set_iter self).
Proof.
  intros Hperm Hremoved. unfold compare_hashes.
  apply preserves_bind;
    [apply stays_directory_refl|apply stays_directory_trans| |].
  { apply stays_directory_apply_category; [done|].
    intros file _. apply stays_directory_add_file. }
  intros _. apply preserves_bind;
    [apply stays_directory_refl|apply stays_directory_trans| |].
  { apply stays_directory_apply_category; [done|].
    intros file Hin. destruct (Hremoved file Hin).
    by apply stays_directory_remove_file. }
  intros _. apply stays_directory_apply_category; [done|].
  intros file _. apply stays_directory_modify_file.
Qed.

(** One pass over a path that is a file in the source and a directory in
    the replica leaves both as they are. *)
Lemma sync_folders_file_over_directory `{HashFunction}
    (set_iter : gset path → list path) (self : FolderSynchronizer) (w : world)
    (k : path) c :
  (∀ X, set_iter X ≡ₚ elements X) →
  separate (source_folder self) (replica_folder self) →
  k ≠ [] →
  entry_at (fs w) (source_folder self ++ k) = Some (FileE c true) →
  entry_at (fs w) (replica_folder self ++ k) = Some DirE →
  let w' := (sync_folders set_iter self w).2 in
  entry_at (fs w') (source_folder self ++ k) = Some (FileE c true)
  ∧ entry_at (fs w') (replica_folder self ++ k) = Some DirE.
Proof.
  intros Hperm Hseparate Hk Hfile Hdir w'. split.
  { unfold w'.
    by rewrite (changes_within_source _ _ _ _ _ Hseparate
                  (sync_folders_changes_within set_iter self w)). }
  unfold w', sync_folders.
  rewrite M_bind_run, process_directory_run.
  rewrite M_bind_run, process_directory_run.
  cbn [fs log source_hash replica_hash source_folder replica_folder].
  rewrite M_bind_run.
  match goal with |- context [compare_hashes set_iter ?s ?w0] =>
    pose proof (stays_directory_compare_hashes set_iter s k Hperm) as Hkeep;
    destruct (compare_hashes set_iter s w0) as [r w1] eqn:Hrun end.
  cbn [source_hash replica_hash replica_folder] in Hkeep.
  assert (entry_at (fs w1) (replica_folder self ++ k) = Some DirE) as Hdir1.
  { eapply Hkeep; [|exact Hrun|done].
    intros file [Hrh Hsh]%elem_of_removed_files.
    rewrite scan_lookup in Hrh, Hsh.
    case_decide as Hnil; [by destruct Hrh as [? [=]]|].
    split; [done|]. intros [q ->].
    destruct (decide (q = [])) as [->|Hq].
    - rewrite app_nil_r in Hfile. by rewrite Hfile in Hsh.
    - rewrite (assoc (++)) in Hfile.
      apply mk_is_Some, entry_at_prefix in Hfile; [|done].
      by rewrite Hfile in Hsh. }
  by destruct r as [[]|e].
Qed.

(** X18: a file in the source over a directory in the replica.  For
    separate folders, when a relative path is a file that can be read
    under the source folder and a directory under the replica folder, no
    number of passes repairs it: whether the loop is still running or has
    raised, the path is the same file in the source and still a directory
    in the replica, and fresh scans of the two folders differ at it. *)
Theorem periodic_sync_file_over_directory_stays `{HashFunction}
    (set_iter : gset path → list path) (self : FolderSynchronizer)
    (sync_interval : Z) (w : world) (k : path) c :
  (∀ X, set_iter X ≡ₚ elements X) →
  separate (source_folder self) (replica_folder self) →
  k ≠ [] →
  entry_at (fs w) (source_folder self ++ k) = Some (FileE c true) →
  entry_at (fs w) (replica_folder self ++ k) = Some DirE →
  ∀ passes,
    let w' := (periodic_sync set_iter passes self sync_interval w).2 in
    entry_at (fs w') (source_folder self ++ k) = Some (FileE c true)
    ∧ entry_at (fs w') (replica_folder self ++ k) = Some DirE
    ∧ scan (fs w') (source_folder self) !! k
        ≠ scan (fs w') (replica_folder self) !! k.
Proof.
  intros Hperm Hseparate Hk Hfile Hdir passes w'.
  assert (entry_at (fs w') (source_folder self ++ k) = Some (FileE c true)
          ∧ entry_at (fs w') (replica_folder self ++ k) = Some DirE) as [Hf' Hd'].
  { unfold w'. rewrite periodic_sync_run.
    assert (∀ self0 w0,
              source_folder self0 = source_folder self →
              replica_folder self0 = replica_folder self →
              entry_at (fs w0) (source_folder self ++ k) = Some (FileE c true) →
              entry_at (fs w0) (replica_folder self ++ k) = Some DirE →
              let w1 := (sync_loop set_iter passes self0 sync_interval w0).2 in
              entry_at (fs w1) (source_folder self ++ k) = Some (FileE c true)
              ∧ entry_at (fs w1) (replica_folder self ++ k) = Some DirE) as Hloop.
    { clear w'. induction passes as [|passes IH]; intros self0 w0 Hs Hr Hf0 Hd0.
      { by cbn. }
      cbv zeta. rewrite sync_loop_S.
      destruct (sync_folders_file_over_directory set_iter self0 w0 k c)
        as [Hf1 Hd1]; [done|by rewrite Hs, Hr|done|by rewrite Hs|by rewrite Hr|].
      rewrite Hs in Hf1. rewrite Hr in Hd1.
      destruct (sync_folders set_iter self0 w0) as [[self1|e] w1] eqn:Hpass;
        cbn [snd] in *; [|done].
      destruct (sync_folders_folders _ _ _ _ _ Hpass) as [Hs1 Hr1].
      apply IH; [congruence|congruence|done|done]. }
    by apply Hloop. }
  split_and!; [done..|].
  rewrite !scan_lookup, !decide_False by done. by rewrite Hf', Hd'.
Qed.

Lemma periodic_sync_file_over_directory_stays_witness :
  let w' := (periodic_sync elements 3 example_self 10 (World kind_flip_fs [])).2 in
  entry_at (fs w') ["source"; "x"]%string
    = Some (FileE (bytes_of_string "hello") true)
  ∧ entry_at (fs w') ["replica"; "x"]%string = Some DirE
  ∧ scan (fs w') ["source"%string] !! ["x"%string]
      ≠ scan (fs w') ["replica"%string] !! ["x"%string].
Proof.
  apply (periodic_sync_file_over_directory_stays elements example_self 10
           (World kind_flip_fs []) ["x"%string] (bytes_of_string "hello")).
  - done.
  - split; intros [q Hq]; discriminate Hq.
  - done.
  - vm_compute. reflexivity.
  - vm_compute. reflexivity.
Defined.
